(** * pluralsh/reporting: usage report and user export

    A shallow embedding of [src/reporting.py] and [src/export_users.py]
    together with the properties the specification states about them.

    Conventions of the embedding.
    - A Python [str] is a [string]; [str.lower] is the ASCII lower-casing
      (bytes outside [A-Z] are left alone).
    - A pandas cell that may be null (NaN) is an [option string]; a
      DataFrame is the list of its rows, a column the list of its cells,
      and selection by a boolean mask is [List.filter].
    - A Python exception is the [Raise] branch of [pyresult].
    - A [dict] whose iteration order matters is an association list with
      Python's assignment semantics ([Dict.set]); a [set] of names is a
      [gset string]; a [defaultdict(set)] is a [gmap string (gset string)]
      read with the default [∅].
    - [pd.to_datetime] is a parameter of the monthly aggregation: a
      function that accepts or rejects each string. *)

From Stdlib Require Import Ascii String ZArith Lia.
From stdpp Require Import gmap strings list fin_maps sorting.

Set Warnings "-register-all,-clear-no-such-hyp".

Local Open Scope string_scope.
Local Open Scope list_scope.

#[local] Arguments String.append !_ _ / : simpl nomatch.

(** ** Python results *)

Inductive exn : Type :=
  | AttributeError
  | KeyError (key : string)
  | TypeError
  | DateParseError.

Inductive pyresult (A : Type) : Type :=
  | Return (a : A)
  | Raise (e : exn).
Arguments Return {A} a.
Arguments Raise {A} e.

#[global] Instance pyresult_bind : MBind pyresult := λ A B k m,
  match m with
  | Return a => k a
  | Raise e => Raise e
  end.

#[global] Instance pyresult_ret : MRet pyresult := λ A a, Return a.

(** ** Python string primitives *)

Module Str.

(** [s.startswith(p)] *)
Fixpoint startswith (s p : string) {struct p} : bool :=
  match p with
  | EmptyString => true
  | String a p' =>
      match s with
      | EmptyString => false
      | String b s' => if Ascii.eqb a b then startswith s' p' else false
      end
  end.

(** [s.endswith(suf)]: [s] is [suf], or the tail of [s] ends with [suf]. *)
Fixpoint endswith (s suf : string) : bool :=
  String.eqb s suf
  || match s with
     | EmptyString => false
     | String _ s' => endswith s' suf
     end.

(** [s[:n]] for a non-negative [n]. *)
Fixpoint take (n : nat) (s : string) : string :=
  match n, s with
  | S n', String c s' => String c (take n' s')
  | _, _ => EmptyString
  end.

(** [s[:-n]] for a positive [n]: all but the last [n] characters. *)
Definition drop_last (n : nat) (s : string) : string :=
  take (String.length s - n) s.

(** [s.split(sep)] for a one-character separator; never the empty list. *)
Fixpoint split (sep : ascii) (s : string) : list string :=
  match s with
  | EmptyString => [EmptyString]
  | String c s' =>
      if Ascii.eqb c sep then EmptyString :: split sep s'
      else match split sep s' with
           | h :: t => String c h :: t
           | [] => [String c EmptyString]
           end
  end.

(** [s.split(sep, 1)]: the text before the first separator and, when there
    is a separator, the text after it. *)
Fixpoint split_once (sep : ascii) (s : string) : string * option string :=
  match s with
  | EmptyString => (EmptyString, None)
  | String c s' =>
      if Ascii.eqb c sep then (EmptyString, Some s')
      else let '(h, t) := split_once sep s' in (String c h, t)
  end.

Definition lower_ascii (c : ascii) : ascii :=
  let n := nat_of_ascii c in
  if (65 <=? n)%nat && (n <=? 90)%nat then ascii_of_nat (n + 32) else c.

(** [s.lower()] *)
Fixpoint lower (s : string) : string :=
  match s with
  | EmptyString => EmptyString
  | String c s' => String (lower_ascii c) (lower s')
  end.

(** [sep.join(l)] *)
Fixpoint join (sep : string) (l : list string) : string :=
  match l with
  | [] => EmptyString
  | [x] => x
  | x :: l' => x +:+ sep +:+ join sep l'
  end.

(** [c in s] for a character *)
Fixpoint contains (c : ascii) (s : string) : bool :=
  match s with
  | EmptyString => false
  | String d s' => Ascii.eqb d c || contains c s'
  end.

(** [x in l] for a list of strings *)
Definition mem (x : string) (l : list string) : bool :=
  existsb (String.eqb x) l.

End Str.

(** ** reporting.py: the two string classifiers *)

Definition environments : list string :=
  ["dev"; "qa"; "prod"; "prd"; "sbx"; "staging"; "test"].

(** The [for part in parts] loop of [get_environment]. *)
Fixpoint get_environment_loop (parts : list string) : option string :=
  match parts with
  | [] => None
  | part :: parts' =>
      if Str.mem (Str.lower part) environments then Some (Str.lower part)
      else get_environment_loop parts'
  end.

(** [get_environment(service_name)].  A null argument has no [split]
    attribute, so the first line raises. *)
Definition get_environment (service_name : option string) : pyresult (option string) :=
  match service_name with
  | None => Raise AttributeError
  | Some name => Return (get_environment_loop (Str.split "-" name))
  end.

(** [get_github_org(repo_url)] *)
Definition get_github_org (repo_url : option string) : option string :=
  match repo_url with
  | None => None
  | Some url =>
      if Str.startswith url "git@" then
        let parts := Str.split ":" url in
        if (1 <? length parts)%nat then
          Some (hd EmptyString (Str.split "/" (nth 1 parts EmptyString)))
        else None
      else if Str.startswith url "http" then
        let parts := Str.split "/" url in
        if (3 <? length parts)%nat then Some (nth 3 parts EmptyString)
        else None
      else None
  end.

(** The text of [s] before the first [sep], all of [s] when there is none. *)
Fixpoint before (sep : ascii) (s : string) : string :=
  match s with
  | EmptyString => EmptyString
  | String c s' => if Ascii.eqb c sep then EmptyString else String c (before sep s')
  end.

(** The SSH branch as the specification words it: split once on [:], then
    keep what precedes the first [/] of the second part. *)
Definition ssh_org_split_once (url : string) : option string :=
  match Str.split_once ":" url with
  | (_, Some rest) => Some (fst (Str.split_once "/" rest))
  | (_, None) => None
  end.

(** ** reporting.py: counting developers *)

(** [Series.unique()]: the distinct values in order of first appearance. *)
Fixpoint unique_go {A : Type} `{EqDecision A} (seen l : list A) : list A :=
  match l with
  | [] => []
  | x :: l' =>
      if decide (x ∈ seen) then unique_go seen l'
      else x :: unique_go (x :: seen) l'
  end.

Definition unique {A : Type} `{EqDecision A} (l : list A) : list A :=
  unique_go [] l.

(** [count_unique_developers(users_df)], on the [email] column of the users
    table.  [.str.lower()] keeps a null cell null. *)
Definition count_unique_developers (email : list (option string)) : nat :=
  length (unique (option_map Str.lower <$> email)).

(** ** reporting.py: workspaces and workloads *)

(** A row of the services table: the three columns the code reads. *)
Record service_row : Type := {
  service : option string;
  repository : option string;
  created_at : option string
}.

(** The value stored under a workspace prefix in [workspaces]. *)
Record workspace : Type := {
  prefix : string;
  workloads : gset string;
  env_workloads : gmap string (gset string);
  org_workloads : gmap string (gset string)
}.

(** A [dict] with string keys, in insertion order. *)
Module Dict.

Definition keys {V : Type} (d : list (string * V)) : list string := d.*1.

(** [d[k] = v]: an existing key keeps its position. *)
Fixpoint set {V : Type} (k : string) (v : V) (d : list (string * V)) : list (string * V) :=
  match d with
  | [] => [(k, v)]
  | (k', v') :: d' =>
      if String.eqb k' k then (k', v) :: d' else (k', v') :: set k v d'
  end.

(** [d.get(k)] *)
Fixpoint get {V : Type} (k : string) (d : list (string * V)) : option V :=
  match d with
  | [] => None
  | (k', v') :: d' => if String.eqb k' k then Some v' else get k d'
  end.

End Dict.

Definition new_workspace (workspace_prefix : string) : workspace :=
  {| prefix := workspace_prefix;
     workloads := ∅;
     env_workloads := ∅;
     org_workloads := ∅ |}.

(** One iteration of the first loop of [analyze_services]. *)
Definition discover (workspaces : list (string * workspace)) (service : option string)
  : list (string * workspace) :=
  match service with
  | None => workspaces
  | Some service =>
      if Str.endswith service "-runtime" then
        let workspace_prefix := Str.drop_last 8 service in
        Dict.set workspace_prefix (new_workspace workspace_prefix) workspaces
      else workspaces
  end.

(** The prefix a cell of the [service] column announces, if any. *)
Definition runtime_prefix_of (cell : option string) : option string :=
  match cell with
  | Some name =>
      if Str.endswith name "-runtime" then Some (Str.drop_last 8 name) else None
  | None => None
  end.

Definition first_pass (services_df : list service_row) : list (string * workspace) :=
  fold_left discover (service <$> services_df) [].

(** [d[key].add(x)] on a [defaultdict(set)]. *)
Definition defaultdict_add (key x : string) (d : gmap string (gset string))
  : gmap string (gset string) :=
  <[key := {[x]} ∪ default ∅ (d !! key)]> d.

(** [if label: d[label].add(x)]: [None] and the empty string are falsy. *)
Definition add_if_truthy (label : option string) (x : string)
    (d : gmap string (gset string)) : gmap string (gset string) :=
  match label with
  | Some l => if String.eqb l "" then d else defaultdict_add l x d
  | None => d
  end.

(** Lines 89-99: the service is a workload of the workspace [w]. *)
Definition add_workload (service : string) (repo : option string) (w : workspace)
  : pyresult workspace :=
  env ← get_environment (Some service);
  let org := get_github_org repo in
  mret {| prefix := prefix w;
          workloads := {[service]} ∪ workloads w;
          env_workloads := add_if_truthy env service (env_workloads w);
          org_workloads := add_if_truthy org service (org_workloads w) |}.

(** The inner loop [for workspace_prefix in workspaces: ... break]. *)
Fixpoint assign (service : string) (repo : option string)
    (workspaces : list (string * workspace)) : pyresult (list (string * workspace)) :=
  match workspaces with
  | [] => mret []
  | (workspace_prefix, w) :: rest =>
      if Str.startswith service (workspace_prefix +:+ "-") then
        if negb (Str.endswith service "-runtime") then
          w' ← add_workload service repo w;
          mret ((workspace_prefix, w') :: rest)
        else mret ((workspace_prefix, w) :: rest)
      else
        rest' ← assign service repo rest;
        mret ((workspace_prefix, w) :: rest')
  end.

(** The second loop of [analyze_services], over the rows of the table. *)
Fixpoint second_pass (rows : list service_row) (workspaces : list (string * workspace))
  : pyresult (list (string * workspace)) :=
  match rows with
  | [] => mret workspaces
  | row :: rows' =>
      match service row with
      | None => second_pass rows' workspaces
      | Some name =>
          workspaces' ← assign name (repository row) workspaces;
          second_pass rows' workspaces'
      end
  end.

(** An entry of [workspace_stats]. *)
Record workspace_stat : Type := {
  total_workloads : nat;
  workload_names : list string;
  env_distribution : gmap string nat;
  environments_seen : list string;
  org_distribution : gmap string nat;
  organizations : list string
}.

(** [sorted(...)] of a collection of distinct strings. *)
Definition sorted (s : gset string) : list string :=
  merge_sort String.le (elements s).

Definition stat_of (data : workspace) : workspace_stat :=
  let env_distribution := size <$> env_workloads data in
  let org_distribution := size <$> org_workloads data in
  {| total_workloads := size (workloads data);
     workload_names := sorted (workloads data);
     env_distribution := env_distribution;
     environments_seen := sorted (dom env_distribution);
     org_distribution := org_distribution;
     organizations := sorted (dom org_distribution) |}.

(** [analyze_services(services_df)]: the number of workspaces, the total
    number of workloads, the statistics and the [workspaces] table. *)
Definition analyze_services (services_df : list service_row)
  : pyresult (nat * nat * list (string * workspace_stat) * list (string * workspace)) :=
  workspaces ← second_pass services_df (first_pass services_df);
  let workspace_stats := prod_map id stat_of <$> workspaces in
  let total := foldl (λ acc e, acc + size (workloads e.2)) 0 workspaces in
  mret (length workspaces, total, workspace_stats, workspaces).

(** The [workspaces] table [analyze_services] returns, if it returns. *)
Definition analyze_services_workspaces (services_df : list service_row)
  : option (list (string * workspace)) :=
  match analyze_services services_df with
  | Return (_, _, _, workspaces) => Some workspaces
  | Raise _ => None
  end.

(** The workload set recorded for a prefix, [∅] when there is none. *)
Definition workloads_of (workspaces : list (string * workspace)) (p : string) : gset string :=
  from_option workloads ∅ (Dict.get p workspaces).

(** The workloads recorded for a prefix under an environment label, and
    under an organization; [∅] when the prefix or the label is not there. *)
Definition env_workloads_of (workspaces : list (string * workspace)) (p env : string)
  : gset string :=
  from_option (λ w, default ∅ (env_workloads w !! env)) ∅ (Dict.get p workspaces).

Definition org_workloads_of (workspaces : list (string * workspace)) (p org : string)
  : gset string :=
  from_option (λ w, default ∅ (org_workloads w !! org)) ∅ (Dict.get p workspaces).

(** The two breakdowns stored under a prefix, empty when it is not a key. *)
Definition env_map (workspaces : list (string * workspace)) (p : string)
  : gmap string (gset string) :=
  from_option env_workloads ∅ (Dict.get p workspaces).

Definition org_map (workspaces : list (string * workspace)) (p : string)
  : gmap string (gset string) :=
  from_option org_workloads ∅ (Dict.get p workspaces).

(** A breakdown in which no label is the empty string and no label holds
    an empty set. *)
Definition populated (d : gmap string (gset string)) : Prop :=
  d !! EmptyString = None ∧ ∀ k s, d !! k = Some s → s ≠ ∅.

(** The workloads of all the workspaces together. *)
Definition all_workloads (workspaces : list (string * workspace)) : gset string :=
  ⋃ (workloads ∘ snd <$> workspaces).

(** No announced prefix, followed by its hyphen, is the beginning of
    another one followed by its hyphen. *)
Definition prefix_free (services_df : list service_row) : bool :=
  let prefixes := omap runtime_prefix_of (service <$> services_df) in
  forallb (λ p,
    forallb (λ q,
      implb (Str.startswith (q +:+ "-") (p +:+ "-")) (String.eqb p q))
      prefixes)
    prefixes.

(** The first prefix, in the order of the table, that [name] starts with. *)
Definition first_match (name : string) (prefixes : list string) : option string :=
  List.find (λ p, Str.startswith name (p +:+ "-")) prefixes.

Definition rows_of (names : list string) : list service_row :=
  (λ n, {| service := Some n; repository := None; created_at := None |}) <$> names.

(** ** reporting.py: the rows of the workspace details table *)

(** A value of a details row: the workspace name or a count. *)
Inductive cell : Type :=
  | CStr (s : string)
  | CInt (n : nat).

(** [{**d, **other}] continued: the items of [other] assigned in order. *)
Definition dict_update {V : Type} (d other : list (string * V)) : list (string * V) :=
  foldl (λ d kv, Dict.set kv.1 kv.2 d) d other.

(** [{f'workloads_in_{x}': distribution.get(x, 0) for x in labels}] *)
Definition distribution_columns (distribution : gmap string nat) (labels : list string)
  : list (string * cell) :=
  foldl (λ d x, Dict.set ("workloads_in_" +:+ x)
                         (CInt (default 0 (distribution !! x))) d) [] labels.

(** The organizations seen in any workspace. *)
Definition all_orgs (workspace_stats : list (string * workspace_stat)) : gset string :=
  ⋃ (dom ∘ org_distribution ∘ snd <$> workspace_stats).

(** The name of the column of a label, [f'workloads_in_{x}']. *)
Definition column (x : string) : string := "workloads_in_" +:+ x.

(** The columns every details row starts with. *)
Definition fixed_columns : list string :=
  ["workspace_name"; "total_workload_count"] ++ (column <$> environments).

(** The dict appended to [workspace_details] for one workspace. *)
Definition details_row (workspace_stats : list (string * workspace_stat))
    (workspace : string) (stats : workspace_stat) : list (string * cell) :=
  let env_data := distribution_columns (env_distribution stats) environments in
  let org_data :=
    distribution_columns (org_distribution stats) (sorted (all_orgs workspace_stats)) in
  dict_update
    (dict_update
       (Dict.set "total_workload_count" (CInt (total_workloads stats))
          (Dict.set "workspace_name" (CStr workspace) []))
       env_data)
    org_data.

(** The list [workspace_details] that [export_results_to_zip] builds before
    it hands it to pandas. *)
Definition workspace_details (workspace_stats : list (string * workspace_stat))
  : list (list (string * cell)) :=
  (λ e, details_row workspace_stats e.1 e.2) <$> workspace_stats.

(** Statistics for the tests of the details table: one workspace with two
    workloads in [prod], one of them from an organization named [prod]. *)
Definition prod_stat : workspace_stat :=
  {| total_workloads := 2;
     workload_names := ["shop-api-prod"; "shop-web-prod"];
     env_distribution := {[ "prod" := 2 ]};
     environments_seen := ["prod"];
     org_distribution := {[ "acme" := 1; "prod" := 1 ]};
     organizations := ["acme"; "prod"] |}.

Definition prod_stats : list (string * workspace_stat) := [("shop", prod_stat)].

(** ** reporting.py: workloads created per month *)

Inductive Month : Type :=
  | Jan | Feb | Mar | Apr | May | Jun | Jul | Aug | Sep | Oct | Nov | Dec.

#[global] Instance Month_eq_dec : EqDecision Month.
Proof. solve_decision. Defined.

(** What the code reads of a parsed timestamp: its calendar date. *)
Record Timestamp : Type := {
  ts_year : Z;
  ts_month : Month;
  ts_day : Z
}.

(** [strftime('%B')] *)
Definition month_name (m : Month) : string :=
  match m with
  | Jan => "January" | Feb => "February" | Mar => "March"
  | Apr => "April" | May => "May" | Jun => "June"
  | Jul => "July" | Aug => "August" | Sep => "September"
  | Oct => "October" | Nov => "November" | Dec => "December"
  end.

Definition all_months : list string :=
  ["January"; "February"; "March"; "April"; "May"; "June";
   "July"; "August"; "September"; "October"; "November"; "December"].

Definition months : list Month :=
  [Jan; Feb; Mar; Apr; May; Jun; Jul; Aug; Sep; Oct; Nov; Dec].

(** The lambda of [workload_mask], applied to one cell of the [service]
    column and the keys of [workspaces]. *)
Definition workload_mask {V : Type} (workspaces : list (string * V)) (s : option string) : bool :=
  match s with
  | Some s =>
      existsb (λ w, Str.startswith s (w +:+ "-")) (Dict.keys workspaces)
      && negb (Str.endswith s "-runtime")
  | None => false
  end.

(** [groupby(key)['service'].count()]: rows whose key is null are dropped;
    every row that reaches this point has a non-null [service]. *)
Definition count_by (keys : list (option string)) : gmap string nat :=
  foldl (λ counts key,
           match key with
           | Some k => <[k := S (default 0 (counts !! k))]> counts
           | None => counts
           end) ∅ keys.

(** [reindex(all_months, fill_value=0).to_dict()] *)
Definition reindex (counts : gmap string nat) : list (string * nat) :=
  (λ m, (m, default 0 (counts !! m))) <$> all_months.

Section Monthly.

(** [pd.to_datetime] on one string: the parsed timestamp, or [None] when
    pandas rejects the string.  The parser belongs to pandas, so the
    embedding takes it as given. *)
Variable parse_datetime : string → option Timestamp.

(** [pd.to_datetime] on one cell: a null cell becomes NaT and raises
    nothing. *)
Definition to_datetime_cell (c : option string) : pyresult (option Timestamp) :=
  match c with
  | None => mret None
  | Some s =>
      match parse_datetime s with
      | Some t => mret (Some t)
      | None => Raise DateParseError
      end
  end.

(** [pd.to_datetime] on a column. *)
Fixpoint to_datetime (col : list (option string)) : pyresult (list (option Timestamp)) :=
  match col with
  | [] => mret []
  | c :: col' =>
      t ← to_datetime_cell c;
      ts ← to_datetime col';
      mret (t :: ts)
  end.

(** [analyze_monthly_creations(services_df, workspaces)] *)
Definition analyze_monthly_creations {V : Type} (services_df : list service_row)
    (workspaces : list (string * V)) : pyresult (list (string * nat)) :=
  let workload_df := List.filter (λ r, workload_mask workspaces (service r)) services_df in
  created ← to_datetime (created_at <$> workload_df);
  let monthly_counts := count_by (option_map (month_name ∘ ts_month) <$> created) in
  mret (reindex monthly_counts).

(** The rows the mask keeps whose timestamp falls in month [m]. *)
Definition created_in {V : Type} (workspaces : list (string * V)) (m : Month)
    (r : service_row) : bool :=
  workload_mask workspaces (service r)
  && match created_at r with
     | Some s =>
         match parse_datetime s with
         | Some t => bool_decide (ts_month t = m)
         | None => false
         end
     | None => false
     end.

(** Every row the mask keeps has a timestamp pandas accepts, or none. *)
Definition all_parse {V : Type} (workspaces : list (string * V))
    (services_df : list service_row) : Prop :=
  ∀ r s, r ∈ services_df → workload_mask workspaces (service r) = true →
         created_at r = Some s → is_Some (parse_datetime s).

(** Some row the mask keeps has a timestamp pandas rejects. *)
Definition some_unparseable {V : Type} (workspaces : list (string * V))
    (services_df : list service_row) : Prop :=
  ∃ r s, r ∈ services_df ∧ workload_mask workspaces (service r) = true
         ∧ created_at r = Some s ∧ parse_datetime s = None.

End Monthly.

(** A parser for the tests below: the dates [YYYY-MM-DD], which pandas
    accepts too. *)
Definition digit (c : ascii) : option Z :=
  let n := Z.of_nat (nat_of_ascii c) in
  if ((48 <=? n) && (n <=? 57))%Z then Some (n - 48)%Z else None.

Definition month_of_Z (n : Z) : option Month :=
  nth_error months (Z.to_nat (n - 1)).

Definition parse_iso (s : string) : option Timestamp :=
  match s with
  | String y1 (String y2 (String y3 (String y4 (String "-"
      (String m1 (String m2 (String "-" (String d1 (String d2 EmptyString))))))))) =>
      y1 ← digit y1; y2 ← digit y2; y3 ← digit y3; y4 ← digit y4;
      m1 ← digit m1; m2 ← digit m2; d1 ← digit d1; d2 ← digit d2;
      let d := (10 * d1 + d2)%Z in
      if ((10 * m1 + m2 =? 0) || (d =? 0) || (31 <? d))%Z then None
      else
        m ← month_of_Z (10 * m1 + m2);
        Some {| ts_year := 1000 * y1 + 100 * y2 + 10 * y3 + y4;
                ts_month := m; ts_day := d |}
  | _ => None
  end.

Definition row (name : string) (created : string) : service_row :=
  {| service := Some name; repository := None; created_at := Some created |}.

(** Two workloads created in March of different years, and their runtime. *)
Definition march_df : list service_row :=
  [row "app-runtime" "2019-01-10"; row "app-api" "2020-03-01";
   row "app-web" "2021-03-15"].

(** The same table with a workload whose timestamp is not a date. *)
Definition broken_df : list service_row :=
  march_df ++ [row "app-db" "yesterday"].

(** ** export_users.py: flattening a user node *)

(** A decoded JSON value, as [response.json()] returns it. *)
Inductive json : Type :=
  | JNull
  | JBool (b : bool)
  | JNum (n : Z)
  | JStr (s : string)
  | JArr (items : list json)
  | JObj (fields : list (string * json)).

(** [v[key]] for a string key: only a dict can be indexed that way. *)
Definition subscript (v : json) (key : string) : pyresult json :=
  match v with
  | JObj fields =>
      match Dict.get key fields with
      | Some x => mret x
      | None => Raise (KeyError key)
      end
  | _ => Raise TypeError
  end.

(** Python truth value. *)
Definition truthy (v : json) : bool :=
  match v with
  | JNull => false
  | JBool b => b
  | JNum n => negb (n =? 0)%Z
  | JStr s => negb (String.eqb s "")
  | JArr items => negb (bool_decide (items = []))
  | JObj fields => negb (bool_decide (fields = []))
  end.

Fixpoint chars (s : string) : list json :=
  match s with
  | EmptyString => []
  | String c s' => JStr (String c EmptyString) :: chars s'
  end.

(** [for g in v]: the items of a list, the keys of a dict, the characters
    of a string. *)
Definition iterate (v : json) : pyresult (list json) :=
  match v with
  | JArr items => mret items
  | JObj fields => mret (JStr <$> Dict.keys fields)
  | JStr s => mret (chars s)
  | _ => Raise TypeError
  end.

(** [str.join] accepts strings only. *)
Definition as_str (v : json) : pyresult string :=
  match v with
  | JStr s => mret s
  | _ => Raise TypeError
  end.

Fixpoint for_each {A B : Type} (f : A → pyresult B) (l : list A) : pyresult (list B) :=
  match l with
  | [] => mret []
  | x :: l' =>
      y ← f x;
      ys ← for_each f l';
      mret (y :: ys)
  end.

(** ** export_users.py: reading the response *)

(** What [requests.post], [raise_for_status] and [response.json] hand to
    the rest of [fetch_users]: one of the [RequestException]s, or the
    decoded body. *)
Inductive reply : Type :=
  | RequestException
  | Body (data : json).

(** How [fetch_users] ends: with the list of nodes, with the exception it
    raises for a GraphQL error list, with the exception it raises in place
    of a [RequestException], or with an exception it does not catch. *)
Inductive fetch_outcome : Type :=
  | Nodes (nodes : list json)
  | GraphQLErrors (errors : json)
  | FailedToFetch
  | Uncaught (e : exn).

(** [needle in s] for two strings. *)
Fixpoint is_substring (needle s : string) : bool :=
  Str.startswith s needle
  || match s with
     | EmptyString => false
     | String _ s' => is_substring needle s'
     end.

(** ["errors" in data] *)
Definition has_errors (data : json) : pyresult bool :=
  match data with
  | JObj fields => mret (bool_decide (is_Some (Dict.get "errors" fields)))
  | JArr items =>
      mret (existsb (λ v, match v with
                          | JStr s => String.eqb s "errors"
                          | _ => false
                          end) items)
  | JStr s => mret (is_substring "errors" s)
  | _ => Raise TypeError
  end.

(** [[edge["node"] for edge in data["data"]["users"]["edges"]]] *)
Definition nodes_of (data : json) : pyresult (list json) :=
  d ← subscript data "data";
  users ← subscript d "users";
  edges ← subscript users "edges";
  edges ← iterate edges;
  for_each (λ edge, subscript edge "node") edges.

(** [fetch_users], from the reply of the server on. *)
Definition fetch_users (r : reply) : fetch_outcome :=
  match r with
  | RequestException => FailedToFetch
  | Body data =>
      match has_errors data with
      | Raise e => Uncaught e
      | Return true =>
          match subscript data "errors" with
          | Return errors => GraphQLErrors errors
          | Raise e => Uncaught e
          end
      | Return false =>
          match nodes_of data with
          | Return nodes => Nodes nodes
          | Raise e => Uncaught e
          end
      end
  end.

(** [edge["node"]] when the edge is an object that has one. *)
Definition node_of (edge : json) : option json :=
  match edge with
  | JObj fields => Dict.get "node" fields
  | _ => None
  end.

(** A body in which the page information of the users is replaced. *)
Definition with_page_info (page_info : json) (fields d users : list (string * json))
  : json :=
  JObj (Dict.set "data"
          (JObj (Dict.set "users" (JObj (Dict.set "pageInfo" page_info users)) d))
          fields).

(** The flattened row, one field per CSV column. *)
Record user_row : Type := {
  row_id : json;
  row_name : json;
  row_email : json;
  row_admin : json;
  row_plural_id : json;
  row_deleted_at : json;
  row_profile : json;
  row_inserted_at : json;
  row_updated_at : json;
  row_groups : string
}.

(** [roles["admin"] if roles else False], for [roles = user["roles"]]. *)
Definition admin_field (roles : json) : pyresult json :=
  if truthy roles then subscript roles "admin" else mret (JBool false).

(** [";".join([g["name"] for g in groups]) if groups else ""], for
    [groups = user["groups"]]. *)
Definition groups_field (groups : json) : pyresult string :=
  if truthy groups then
    gs ← iterate groups;
    names ← for_each (λ g, subscript g "name") gs;
    names ← for_each as_str names;
    mret (Str.join ";" names)
  else mret EmptyString.

(** [process_user(user)]; the fields are evaluated in the order of the dict
    display. *)
Definition process_user (user : json) : pyresult user_row :=
  id ← subscript user "id";
  name ← subscript user "name";
  email ← subscript user "email";
  roles ← subscript user "roles";
  admin ← admin_field roles;
  plural_id ← subscript user "pluralId";
  deleted_at ← subscript user "deletedAt";
  profile ← subscript user "profile";
  inserted_at ← subscript user "insertedAt";
  updated_at ← subscript user "updatedAt";
  groups ← subscript user "groups";
  groups ← groups_field groups;
  mret {| row_id := id; row_name := name; row_email := email; row_admin := admin;
          row_plural_id := plural_id; row_deleted_at := deleted_at;
          row_profile := profile; row_inserted_at := inserted_at;
          row_updated_at := updated_at; row_groups := groups |}.

(** A node of the shape the query of [fetch_users] asks for: the ten fields
    are present, [roles] is null or an object with an [admin] field, and
    [groups] is null or a list of objects with a string [name]. *)
Definition is_group (g : json) : option string :=
  match g with
  | JObj fields =>
      match Dict.get "name" fields with
      | Some (JStr s) => Some s
      | _ => None
      end
  | _ => None
  end.

Definition roles_shaped (v : json) : bool :=
  match v with
  | JNull => true
  | JObj fields => bool_decide (is_Some (Dict.get "admin" fields))
  | _ => false
  end.

Definition groups_shaped (v : json) : bool :=
  match v with
  | JNull => true
  | JArr items => forallb (λ g, bool_decide (is_Some (is_group g))) items
  | _ => false
  end.

Definition user_fields : list string :=
  ["id"; "name"; "email"; "roles"; "pluralId"; "deletedAt"; "profile";
   "insertedAt"; "updatedAt"; "groups"].

Definition user_node (user : json) : bool :=
  match user with
  | JObj fields =>
      forallb (λ k, bool_decide (is_Some (Dict.get k fields))) user_fields
      && from_option roles_shaped false (Dict.get "roles" fields)
      && from_option groups_shaped false (Dict.get "groups" fields)
  | _ => false
  end.

(** The first of the ten fields, in the order [process_user] reads them,
    that a node lacks. *)
Definition first_missing (fields : list (string * json)) : option string :=
  List.find (λ k, negb (bool_decide (is_Some (Dict.get k fields)))) user_fields.

(** The names of the groups of a node, [[]] when [groups] is null. *)
Definition group_names (user : json) : list string :=
  match subscript user "groups" with
  | Return (JArr items) => omap is_group items
  | _ => []
  end.

(** * Properties *)

(** ** The functions on small inputs *)

Example get_environment_prod :
  get_environment (Some "foo-prod-bar") = Return (Some "prod").
Proof. reflexivity. Qed.

Example get_environment_upper_case :
  get_environment (Some "api-STAGING-eu") = Return (Some "staging").
Proof. reflexivity. Qed.

Example get_environment_whole_tokens_only :
  get_environment (Some "production-api") = Return None.
Proof. reflexivity. Qed.

Example get_github_org_ssh_url :
  get_github_org (Some "git@github.com:acme/repo.git") = Some "acme".
Proof. reflexivity. Qed.

Example get_github_org_https_url :
  get_github_org (Some "https://github.com/acme/repo") = Some "acme".
Proof. reflexivity. Qed.

Example get_github_org_short_url : get_github_org (Some "https://github.com") = None.
Proof. reflexivity. Qed.

Example get_github_org_other_scheme :
  get_github_org (Some "ssh://git@github.com/acme/repo") = None.
Proof. reflexivity. Qed.

(** With the prefixes [a] and [a-b], the service [a-b-web] goes to the one
    whose runtime service comes first in the table. *)
Example first_prefix_wins :
  ((λ ws, workloads_of ws "a")
     <$> analyze_services_workspaces (rows_of ["a-runtime"; "a-b-runtime"; "a-b-web"]))
  = Some {[ "a-b-web" ]}
  ∧ ((λ ws, workloads_of ws "a")
       <$> analyze_services_workspaces (rows_of ["a-b-runtime"; "a-runtime"; "a-b-web"]))
    = Some ∅.
Proof. split; by vm_compute. Qed.

(** A node without the [roles] key is not what the query returns: indexing
    it raises. *)
Example process_user_without_roles_key :
  process_user (JObj [("id", JStr "u1"); ("name", JStr "Ann"); ("email", JStr "a@x.io")])
  = Raise (KeyError "roles").
Proof. reflexivity. Qed.

Example count_unique_developers_null_cell :
  count_unique_developers [Some "a@x.io"; None; Some "A@X.IO"; None] = 2.
Proof. reflexivity. Qed.

(** ** Strings *)

Section StrFacts.

Lemma startswith_iff s p : Str.startswith s p = true ↔ ∃ r, s = p +:+ r.
Proof.
  revert s. induction p as [|a p IH]; intros s; simpl.
  - split; [intros _; by exists s|by intros _].
  - destruct s as [|b s].
    + split; [done|]. intros [r Hr]. discriminate.
    + destruct (Ascii.eqb_spec a b) as [->|Hne].
      * rewrite IH. split; intros [r Hr]; exists r; by simplify_eq/=.
      * split; [done|]. intros [r Hr]. simplify_eq/=.
Qed.

Lemma endswith_unfold s suf :
  Str.endswith s suf
  = String.eqb s suf
    || match s with
       | EmptyString => false
       | String _ s' => Str.endswith s' suf
       end.
Proof. by destruct s. Qed.

Lemma endswith_iff s suf : Str.endswith s suf = true ↔ ∃ p, s = p +:+ suf.
Proof.
  induction s as [|c s IH]; rewrite endswith_unfold.
  - rewrite orb_false_r, String.eqb_eq. split.
    + intros <-. by exists "".
    + intros [[|? ?] Hp]; simpl in Hp; [done|discriminate].
  - rewrite orb_true_iff, String.eqb_eq, IH. split.
    + intros [<-|[p ->]]; [by exists ""|by exists (String c p)].
    + intros [[|d p] Hp]; simpl in Hp; [by left|].
      right. exists p. congruence.
Qed.

Lemma length_app (a b : string) :
  String.length (a +:+ b) = String.length a + String.length b.
Proof. induction a; simpl; congruence. Qed.

Lemma take_app (a b : string) : Str.take (String.length a) (a +:+ b) = a.
Proof. induction a; simpl; [by destruct b|congruence]. Qed.

Lemma drop_last_app (p suf : string) :
  Str.drop_last (String.length suf) (p +:+ suf) = p.
Proof.
  unfold Str.drop_last. rewrite length_app.
  replace (String.length p + String.length suf - String.length suf)
    with (String.length p) by lia.
  apply take_app.
Qed.

(** A name that ends in [-runtime] is its prefix followed by [-runtime]. *)
Lemma runtime_name name :
  Str.endswith name "-runtime" = true → name = Str.drop_last 8 name +:+ "-runtime".
Proof.
  intros [p ->]%endswith_iff. f_equal. symmetry.
  exact (drop_last_app p "-runtime").
Qed.

Lemma runtime_prefix p :
  Str.endswith (p +:+ "-runtime") "-runtime" = true
  ∧ Str.drop_last 8 (p +:+ "-runtime") = p.
Proof.
  split; [apply endswith_iff; eauto|exact (drop_last_app p "-runtime")].
Qed.

Lemma split_nonempty sep s : Str.split sep s ≠ [].
Proof.
  destruct s as [|c s]; simpl; [done|].
  destruct (Ascii.eqb c sep); [done|]. by destruct (Str.split sep s).
Qed.

Lemma mem_iff x l : Str.mem x l = true ↔ x ∈ l.
Proof.
  unfold Str.mem. rewrite existsb_exists. setoid_rewrite String.eqb_eq.
  setoid_rewrite <- list_elem_of_In. naive_solver.
Qed.

End StrFacts.

(** ** The dictionary of workspaces *)

Section DictFacts.
Context {V : Type}.
Implicit Types (d : list (string * V)) (k : string).

Lemma keys_set k v d :
  Dict.keys (Dict.set k v d)
  = if decide (k ∈ Dict.keys d) then Dict.keys d else Dict.keys d ++ [k].
Proof.
  unfold Dict.keys. induction d as [|[k' v'] d IH]; csimpl; [done|].
  destruct (String.eqb_spec k' k) as [->|Hne]; csimpl.
  - rewrite decide_True; [done|set_solver].
  - rewrite IH. destruct (decide (k ∈ d.*1)).
    + rewrite decide_True; [done|set_solver].
    + rewrite decide_False; [done|]. set_solver.
Qed.

Lemma get_set k k' v d :
  Dict.get k' (Dict.set k v d) = if decide (k = k') then Some v else Dict.get k' d.
Proof.
  induction d as [|[k0 v0] d IH]; simpl.
  - destruct (String.eqb_spec k k'); by case_decide.
  - destruct (String.eqb_spec k0 k) as [->|Hne]; simpl.
    + destruct (String.eqb_spec k k'); by case_decide.
    + rewrite IH. destruct (String.eqb_spec k0 k'); [|done].
      rewrite decide_False; [done|congruence].
Qed.

Lemma get_None k d : Dict.get k d = None ↔ k ∉ Dict.keys d.
Proof.
  unfold Dict.keys. induction d as [|[k0 v0] d IH]; csimpl; [set_solver|].
  destruct (String.eqb_spec k0 k) as [->|Hne]; [set_solver|].
  rewrite IH. set_solver.
Qed.

Lemma get_Some_elem k v d : Dict.get k d = Some v → (k, v) ∈ d.
Proof.
  induction d as [|[k0 v0] d IH]; simpl; [done|].
  destruct (String.eqb_spec k0 k) as [->|Hne]; [|set_solver].
  intros [= ->]. set_solver.
Qed.

Lemma NoDup_keys_set k v d : NoDup (Dict.keys d) → NoDup (Dict.keys (Dict.set k v d)).
Proof.
  intros Hd. rewrite keys_set. case_decide; [done|].
  apply NoDup_app. split_and!; [done|set_solver|apply NoDup_singleton].
Qed.

End DictFacts.

(** ** [Series.unique] *)

Section UniqueFacts.
Context {A : Type} `{EqDecision A}.
Implicit Types (l seen : list A).

Lemma unique_go_ext seen seen' l :
  (∀ x, x ∈ seen ↔ x ∈ seen') → unique_go seen l = unique_go seen' l.
Proof.
  revert seen seen'. induction l as [|a l IH]; intros seen seen' Hs; simpl; [done|].
  destruct (decide (a ∈ seen)) as [Ha|Ha].
  - rewrite decide_True by by apply Hs. by apply IH.
  - rewrite decide_False by by rewrite <- Hs. f_equal. apply IH. set_solver.
Qed.

Lemma elem_of_unique_go seen l x : x ∈ unique_go seen l ↔ x ∈ l ∧ x ∉ seen.
Proof.
  revert seen. induction l as [|a l IH]; intros seen; simpl; [set_solver|].
  destruct (decide (a ∈ seen)) as [Ha|Ha].
  - rewrite IH. set_solver.
  - rewrite elem_of_cons, IH. destruct (decide (x = a)); set_solver.
Qed.

Lemma NoDup_unique_go seen l : NoDup (unique_go seen l).
Proof.
  revert seen. induction l as [|a l IH]; intros seen; simpl; [constructor|].
  destruct (decide (a ∈ seen)); [done|].
  constructor; [|done]. rewrite elem_of_unique_go. set_solver.
Qed.

Lemma elem_of_unique l x : x ∈ unique l ↔ x ∈ l.
Proof. unfold unique. rewrite elem_of_unique_go. set_solver. Qed.

Lemma NoDup_unique l : NoDup (unique l).
Proof. apply NoDup_unique_go. Qed.

End UniqueFacts.

(** ** The first pass: discovery *)

Section Discovery.
Implicit Types (ws : list (string * workspace)) (df : list service_row).

Lemma discover_keys ws c :
  Dict.keys (discover ws c)
  = match runtime_prefix_of c with
    | Some p => if decide (p ∈ Dict.keys ws) then Dict.keys ws else Dict.keys ws ++ [p]
    | None => Dict.keys ws
    end.
Proof.
  destruct c as [s|]; simpl; [|done].
  destruct (Str.endswith s "-runtime"); [|done]. apply keys_set.
Qed.

Lemma discover_all_keys cells ws :
  Dict.keys (fold_left discover cells ws)
  = Dict.keys ws ++ unique_go (Dict.keys ws) (omap runtime_prefix_of cells).
Proof.
  revert ws. induction cells as [|c cells IH]; intros ws; simpl.
  - by rewrite app_nil_r.
  - rewrite IH, discover_keys. destruct (runtime_prefix_of c) as [p|]; [|done].
    simpl. destruct (decide (p ∈ Dict.keys ws)); [done|].
    rewrite <- app_assoc. simpl. do 2 f_equal.
    apply unique_go_ext. set_solver.
Qed.

(** The prefixes are kept in the order in which their runtime service is
    first met. *)
Lemma first_pass_keys df :
  Dict.keys (first_pass df) = unique (omap runtime_prefix_of (service <$> df)).
Proof. unfold first_pass. by rewrite discover_all_keys. Qed.

Lemma workloads_of_set k v ws p :
  workloads_of (Dict.set k v ws) p
  = if decide (k = p) then workloads v else workloads_of ws p.
Proof. unfold workloads_of. rewrite get_set. by case_decide. Qed.

Lemma discover_all_empty cells ws :
  (∀ p, workloads_of ws p = ∅) →
  ∀ p, workloads_of (fold_left discover cells ws) p = ∅.
Proof.
  revert ws. induction cells as [|c cells IH]; intros ws Hws; simpl; [done|].
  apply IH. intros p. destruct c as [s|]; simpl; [|done].
  destruct (Str.endswith s "-runtime"); [|done].
  rewrite workloads_of_set. by case_decide.
Qed.

Lemma first_pass_empty df p : workloads_of (first_pass df) p = ∅.
Proof. by apply discover_all_empty. Qed.

Lemma elem_of_runtime_prefixes (cells : list (option string)) p :
  p ∈ omap runtime_prefix_of cells
  ↔ ∃ name, Some name ∈ cells ∧ Str.endswith name "-runtime" = true
            ∧ p = Str.drop_last 8 name.
Proof.
  rewrite list_elem_of_omap. split.
  - intros ([name|] & Hin & Hp); simpl in Hp; [|done].
    destruct (Str.endswith name "-runtime") eqn:He; [|done].
    exists name. by simplify_eq.
  - intros (name & Hin & He & ->). exists (Some name). simpl. by rewrite He.
Qed.

End Discovery.

(** ** The second pass: assignment *)

Section Assignment.
Implicit Types (ws : list (string * workspace)) (df rows : list service_row).

Lemma bind_Return {A B : Type} (a : A) (k : A → pyresult B) :
  (Return a ≫= k) = k a.
Proof. reflexivity. Qed.

Lemma workloads_of_cons k w ws p :
  workloads_of ((k, w) :: ws) p
  = if decide (k = p) then workloads w else workloads_of ws p.
Proof.
  unfold workloads_of. simpl.
  destruct (String.eqb_spec k p); by case_decide.
Qed.

Lemma first_match_cons name k ks :
  first_match name (k :: ks)
  = if Str.startswith name (k +:+ "-") then Some k else first_match name ks.
Proof. reflexivity. Qed.

Lemma first_match_Some name ks p :
  first_match name ks = Some p → p ∈ ks ∧ Str.startswith name (p +:+ "-") = true.
Proof.
  intros [Hin Hp]%List.find_some. split; [by apply list_elem_of_In|done].
Qed.

Lemma add_workload_returns name repo w :
  ∃ w', add_workload name repo w = Return w'
        ∧ workloads w' = {[name]} ∪ workloads w.
Proof. eexists. split; [reflexivity|done]. Qed.

(** One service: the loop returns, keeps the keys, and touches the
    workload set of the first matching prefix only. *)
Lemma assign_spec name repo ws :
  ∃ ws', assign name repo ws = Return ws'
    ∧ Dict.keys ws' = Dict.keys ws
    ∧ ∀ p, workloads_of ws' p
           = if decide (first_match name (Dict.keys ws) = Some p
                        ∧ Str.endswith name "-runtime" = false)
             then {[name]} ∪ workloads_of ws p
             else workloads_of ws p.
Proof.
  induction ws as [|[k w] ws IH].
  - exists []. split_and!; [done..|]. intros p. by rewrite decide_False by naive_solver.
  - unfold Dict.keys in *. csimpl.
    destruct (Str.startswith name (k +:+ "-")) eqn:Hs.
    + destruct (Str.endswith name "-runtime") eqn:He; simpl.
      * exists ((k, w) :: ws). split_and!; [done..|].
        intros p. by rewrite decide_False by naive_solver.
      * eexists. split_and!; [reflexivity..|].
        intros p. rewrite !workloads_of_cons. simpl.
        destruct (decide (k = p)) as [->|Hne].
        -- by rewrite decide_True.
        -- by rewrite decide_False by naive_solver.
    + destruct IH as (ws' & -> & Hk & Hw). rewrite bind_Return.
      exists ((k, w) :: ws'). split_and!; [done|by csimpl; rewrite Hk|].
      intros p. rewrite !workloads_of_cons, Hw.
      destruct (decide (k = p)) as [->|Hne]; [|done].
      rewrite decide_False; [done|].
      intros [[_ Hp]%first_match_Some _]. congruence.
Qed.

Lemma second_pass_spec rows ws :
  ∃ ws', second_pass rows ws = Return ws'
    ∧ Dict.keys ws' = Dict.keys ws
    ∧ ∀ p name, name ∈ workloads_of ws' p
        ↔ name ∈ workloads_of ws p
          ∨ (Some name ∈ service <$> rows
             ∧ first_match name (Dict.keys ws) = Some p
             ∧ Str.endswith name "-runtime" = false).
Proof.
  revert ws. induction rows as [|row rows IH]; intros ws; csimpl.
  - exists ws. split_and!; [done..|]. intros p name. set_solver.
  - destruct (service row) as [s|] eqn:Hrow.
    + destruct (assign_spec s (repository row) ws) as (ws1 & -> & Hk1 & Hw1).
      rewrite bind_Return. destruct (IH ws1) as (ws' & -> & Hk & Hw).
      exists ws'. split_and!; [done|congruence|].
      intros p name. rewrite Hw, Hw1, Hk1, elem_of_cons.
      destruct (decide (first_match s (Dict.keys ws) = Some p
                        ∧ Str.endswith s "-runtime" = false)) as [Hd|Hd].
      * rewrite elem_of_union, elem_of_singleton. naive_solver.
      * naive_solver.
    + destruct (IH ws) as (ws' & -> & Hk & Hw).
      exists ws'. split_and!; [done..|].
      intros p name. rewrite Hw, elem_of_cons. naive_solver.
Qed.

(** [analyze_services] always returns; its table has the keys of the
    first pass, and a name is a workload of [p] exactly when it is in the
    table, [p] is its first matching prefix, and it is not a runtime
    service. *)
Lemma analyze_services_spec df :
  ∃ ws, analyze_services df
        = Return (length ws,
                  foldl (λ acc e, acc + size (workloads e.2)) 0 ws,
                  prod_map id stat_of <$> ws,
                  ws)
    ∧ Dict.keys ws = Dict.keys (first_pass df)
    ∧ ∀ p name, name ∈ workloads_of ws p
        ↔ Some name ∈ service <$> df
          ∧ first_match name (Dict.keys ws) = Some p
          ∧ Str.endswith name "-runtime" = false.
Proof.
  unfold analyze_services.
  destruct (second_pass_spec df (first_pass df)) as (ws & -> & Hk & Hw).
  rewrite bind_Return. exists ws. split_and!; [done..|].
  intros p name. rewrite Hw, first_pass_empty, Hk. set_solver.
Qed.

End Assignment.

(** ** Workspaces and workloads: the stated properties *)

Lemma keys_stats (ws : list (string * workspace)) :
  Dict.keys (prod_map id stat_of <$> ws) = Dict.keys ws.
Proof.
  unfold Dict.keys. rewrite <- list_fmap_compose.
  apply list_fmap_ext. by intros _ [k w] _.
Qed.

(** C1. Workspace discovery.  For every services table, [analyze_services]
    returns, and the prefixes it discovers (the keys of [workspaces], which
    are also the keys of the statistics and are counted by the first
    component) are exactly the names ending in [-runtime] with that suffix
    removed: [p] is a workspace if and only if a service [p-runtime] is in
    the table.  The services [a-runtime] and [a-b-runtime] give the two
    prefixes [a] and [a-b]. *)
Theorem workspace_discovery :
  (∀ df : list service_row,
    ∃ n total stats ws,
      analyze_services df = Return (n, total, stats, ws)
      ∧ n = length ws
      ∧ Dict.keys stats = Dict.keys ws
      ∧ NoDup (Dict.keys ws)
      ∧ (∀ p, p ∈ Dict.keys ws
              ↔ ∃ name, Some name ∈ service <$> df
                        ∧ Str.endswith name "-runtime" = true
                        ∧ p = Str.drop_last 8 name)
      ∧ (∀ p, p ∈ Dict.keys ws ↔ Some (p +:+ "-runtime") ∈ service <$> df))
  ∧ (∃ n total stats ws,
      analyze_services (rows_of ["a-runtime"; "a-b-runtime"])
      = Return (n, total, stats, ws)
      ∧ n = 2 ∧ Dict.keys ws = ["a"; "a-b"]).
Proof.
  split.
  - intros df. destruct (analyze_services_spec df) as (ws & Hret & Hk & _).
    eexists _, _, _, ws. split; [exact Hret|].
    assert (Hmem : ∀ p, p ∈ Dict.keys ws
              ↔ ∃ name, Some name ∈ service <$> df
                        ∧ Str.endswith name "-runtime" = true
                        ∧ p = Str.drop_last 8 name).
    { intros p.
      by rewrite Hk, first_pass_keys, elem_of_unique, elem_of_runtime_prefixes. }
    split_and!; [done|apply keys_stats| |done|].
    + rewrite Hk, first_pass_keys. apply NoDup_unique.
    + intros p. rewrite Hmem. split.
      * intros (name & Hin & He & ->). by rewrite <- runtime_name.
      * intros Hin. exists (p +:+ "-runtime").
        destruct (runtime_prefix p) as [He Hp]. by rewrite Hp.
  - eexists _, _, _, _. split; [vm_compute; reflexivity|]. by vm_compute.
Qed.

(** C2. Workload assignment.  For every services table, a name is in the
    workload set of the prefix [p] exactly when it is a non-null name of the
    table, [p] is the first prefix in discovery order such that the name
    starts with [p-], and the name does not end in [-runtime]; so a name is
    a workload of at most one workspace.  The prefixes are tried in the
    order in which their runtime service first appears.  On the four
    services of the example, [payments] has the two workloads
    [payments-api] and [payments-worker] and [other] has none. *)
Theorem workload_assignment :
  (∀ df : list service_row,
    ∃ n total stats ws,
      analyze_services df = Return (n, total, stats, ws)
      ∧ Dict.keys ws = unique (omap runtime_prefix_of (service <$> df))
      ∧ (∀ p name, name ∈ workloads_of ws p
           ↔ Some name ∈ service <$> df
             ∧ first_match name (Dict.keys ws) = Some p
             ∧ Str.endswith name "-runtime" = false)
      ∧ (∀ p q name, name ∈ workloads_of ws p → name ∈ workloads_of ws q → p = q))
  ∧ (∃ n total stats ws,
      analyze_services
        (rows_of ["payments-runtime"; "payments-api"; "payments-worker"; "other-runtime"])
      = Return (n, total, stats, ws)
      ∧ workloads_of ws "payments" = {[ "payments-api"; "payments-worker" ]}
      ∧ size (workloads_of ws "payments") = 2
      ∧ (total_workloads <$> Dict.get "payments" stats) = Some 2
      ∧ workloads_of ws "other" = ∅
      ∧ (total_workloads <$> Dict.get "other" stats) = Some 0).
Proof.
  split.
  - intros df. destruct (analyze_services_spec df) as (ws & Hret & Hk & Hw).
    eexists _, _, _, ws. split; [exact Hret|].
    split_and!; [by rewrite Hk, first_pass_keys|done|].
    intros p q name [_ [Hp _]]%Hw [_ [Hq _]]%Hw. congruence.
  - eexists _, _, _, _. split; [vm_compute; reflexivity|].
    split_and!; by vm_compute.
Qed.

(** C9. No runtime service is ever a workload.  For every services table,
    no name ending in [-runtime] is in the workload set of any workspace,
    whether it is the workspace's own sentinel or another runtime service
    that starts with its prefix: [a-b-runtime] is not a workload of [a]. *)
Theorem runtime_never_workload :
  (∀ df : list service_row,
    ∃ n total stats ws,
      analyze_services df = Return (n, total, stats, ws)
      ∧ ∀ p name, Str.endswith name "-runtime" = true → name ∉ workloads_of ws p)
  ∧ (∃ n total stats ws,
      analyze_services (rows_of ["a-runtime"; "a-b-runtime"; "a-b-web"; "a-web"])
      = Return (n, total, stats, ws)
      ∧ ("a-b-runtime" ∉ workloads_of ws "a")
      ∧ ("a-runtime" ∉ workloads_of ws "a")
      ∧ workloads_of ws "a" = {[ "a-b-web"; "a-web" ]}).
Proof.
  split.
  - intros df. destruct (analyze_services_spec df) as (ws & Hret & _ & Hw).
    eexists _, _, _, ws. split; [exact Hret|].
    intros p name He [_ [_ Hne]]%Hw. congruence.
  - eexists _, _, _, _. split; [vm_compute; reflexivity|].
    split_and!; by vm_compute.
Qed.

(** ** The environment classifier *)

Section Environment.

(** The loop returns the lower-cased first token whose lower-casing is a
    label. *)
Lemma get_environment_loop_Some parts e :
  get_environment_loop parts = Some e
  ↔ ∃ skipped token rest,
      parts = skipped ++ token :: rest
      ∧ Forall (λ t, Str.lower t ∉ environments) skipped
      ∧ Str.lower token ∈ environments
      ∧ e = Str.lower token.
Proof.
  induction parts as [|part parts IH]; cbn [get_environment_loop].
  - split; [done|]. intros (skipped & ? & ? & Hp & _). by destruct skipped.
  - destruct (Str.mem (Str.lower part) environments) eqn:Hm.
    + apply mem_iff in Hm. split.
      * intros ?; simplify_eq. by exists [], part, parts.
      * intros ([|t skipped] & token & rest & Hp & Hsk & Hin & ->);
          simplify_eq/=; [done|].
        by apply Forall_cons_1 in Hsk as [? _].
    + assert (Str.lower part ∉ environments) as Hn.
      { rewrite <- mem_iff. congruence. }
      rewrite IH. split.
      * intros (skipped & token & rest & -> & Hsk & Hin & ->).
        exists (part :: skipped), token, rest. by split_and!; [|constructor|..].
      * intros ([|t skipped] & token & rest & Hp & Hsk & Hin & ->);
          simplify_eq/=; [done|].
        apply Forall_cons_1 in Hsk as [_ Hsk]. by exists skipped, token, rest.
Qed.

Lemma get_environment_loop_None parts :
  get_environment_loop parts = None
  ↔ Forall (λ t, Str.lower t ∉ environments) parts.
Proof.
  induction parts as [|part parts IH]; cbn [get_environment_loop]; [by split|].
  destruct (Str.mem (Str.lower part) environments) eqn:Hm.
  - apply mem_iff in Hm. split; [done|]. by intros [? _]%Forall_cons_1.
  - rewrite IH, Forall_cons. rewrite <- mem_iff. split; [|tauto].
    split; [congruence|done].
Qed.

End Environment.

(** C3, as the code has it.  For every service name that is a string,
    [get_environment] returns (it does not raise) the lower-cased first
    token of the name, in hyphen order, whose lower-casing is one of the
    seven labels, and it returns [None] exactly when no token matches;
    [foo-prod-bar] gives [prod].  A null argument is not among the inputs:
    the only caller skips null names first. *)
Theorem get_environment_first_token :
  (∀ name : string,
    ∃ r, get_environment (Some name) = Return r
      ∧ (∀ e, r = Some e
           ↔ ∃ skipped token rest,
               Str.split "-" name = skipped ++ token :: rest
               ∧ Forall (λ t, Str.lower t ∉ environments) skipped
               ∧ Str.lower token ∈ environments
               ∧ e = Str.lower token)
      ∧ (r = None ↔ Forall (λ t, Str.lower t ∉ environments) (Str.split "-" name)))
  ∧ get_environment (Some "foo-prod-bar") = Return (Some "prod")
  ∧ get_environment (Some "foo-bar-developer") = Return None.
Proof.
  split; [|by split].
  intros name. eexists. split; [reflexivity|]. split.
  - intros e. apply get_environment_loop_Some.
  - apply get_environment_loop_None.
Qed.

(** C3, as stated, fails on a null name: [None.split] raises
    [AttributeError], so nothing is returned, in particular not [None]. *)
Lemma get_environment_null_raises :
  get_environment None = Raise AttributeError
  ∧ get_environment None ≠ Return None.
Proof. by split. Qed.

(** ** The organization classifier *)

Section Splitting.
Implicit Types (sep : ascii) (s : string).

Lemma split_once_before sep s : (Str.split_once sep s).1 = before sep s.
Proof.
  induction s as [|c s IH]; simpl; [done|].
  destruct (Ascii.eqb c sep); [done|].
  destruct (Str.split_once sep s). simpl in *. by rewrite IH.
Qed.

(** [split] is [split_once] repeated on what follows the separator. *)
Lemma split_split_once sep s :
  Str.split sep s
  = match Str.split_once sep s with
    | (h, None) => [h]
    | (h, Some t) => h :: Str.split sep t
    end.
Proof.
  induction s as [|c s IH]; simpl; [done|].
  destruct (Ascii.eqb c sep); [done|].
  rewrite IH. by destruct (Str.split_once sep s) as [h [t|]].
Qed.

Lemma hd_split sep s : hd EmptyString (Str.split sep s) = before sep s.
Proof.
  rewrite split_split_once, <- split_once_before.
  by destruct (Str.split_once sep s) as [h [t|]].
Qed.

(** What [split_once] returns: the separator-free text before the first
    separator, and the text after it. *)
Lemma split_once_Some sep s h t :
  Str.split_once sep s = (h, Some t)
  → s = h +:+ String sep t ∧ Str.contains sep h = false.
Proof.
  revert h. induction s as [|c s IH]; intros h; simpl; [done|].
  destruct (Ascii.eqb_spec c sep) as [->|Hne].
  - by intros [= <- <-].
  - destruct (Str.split_once sep s) as [h' t'] eqn:E. intros [= <- ->].
    destruct (IH h' eq_refl) as [-> Hc]. simpl. split; [done|].
    rewrite Hc. by destruct (Ascii.eqb_spec c sep).
Qed.

Lemma split_once_None sep s h :
  Str.split_once sep s = (h, None) → h = s ∧ Str.contains sep s = false.
Proof.
  revert h. induction s as [|c s IH]; intros h; simpl; [by intros [= <-]|].
  destruct (Ascii.eqb_spec c sep) as [->|Hne]; [done|].
  destruct (Str.split_once sep s) as [h' t'] eqn:E. intros [= <- ->].
  by destruct (IH h' eq_refl) as [-> ->].
Qed.

(** Cutting at the first [:] and then at the first [/] is cutting at the
    first [/] when no [:] comes before it. *)
Lemma before_before s :
  Str.contains ":" (before "/" s) = false →
  before "/" (before ":" s) = before "/" s.
Proof.
  induction s as [|c s IH]; simpl; [done|].
  destruct (Ascii.eqb_spec c "/") as [->|Hs]; simpl; [done|].
  destruct (Ascii.eqb_spec c ":") as [->|Hc]; simpl; [done|].
  destruct (Ascii.eqb_spec c "/"); [done|]. intros H. by rewrite IH.
Qed.

Lemma ssh_not_http url :
  Str.startswith url "http" = true → Str.startswith url "git@" = false.
Proof. by intros [r ->]%startswith_iff. Qed.

Lemma get_github_org_ssh url :
  Str.startswith url "git@" = true →
  get_github_org (Some url)
  = match Str.split_once ":" url with
    | (_, Some rest) => Some (before "/" (before ":" rest))
    | (_, None) => None
    end.
Proof.
  intros Hs. unfold get_github_org. rewrite Hs, split_split_once.
  destruct (Str.split_once ":" url) as [h [t|]]; [|done].
  pose proof (hd_split ":" t) as Hhd.
  destruct (Str.split ":" t) as [|x xs] eqn:E; [by apply split_nonempty in E|].
  simpl in *. by rewrite hd_split, Hhd.
Qed.

End Splitting.

(** C4, as the code has it.  For every URL that starts with [git@],
    [get_github_org] splits on every [:]; when there is a second part it
    returns that part's text before the first [/], which is the text after
    the first [:] up to the next [:] or [/]; without any [:] it returns
    [None].  This is the split-once reading whenever no further [:] comes
    before the first [/] of what follows the first [:], so
    [git@github.com:acme/repo.git] gives [acme]. *)
Theorem ssh_org_second_part :
  (∀ url : string, Str.startswith url "git@" = true →
    get_github_org (Some url)
    = match Str.split_once ":" url with
      | (_, Some rest) => Some (before "/" (before ":" rest))
      | (_, None) => None
      end
    ∧ (Str.contains ":" url = false → get_github_org (Some url) = None)
    ∧ (∀ host rest, Str.split_once ":" url = (host, Some rest) →
         Str.contains ":" (before "/" rest) = false →
         get_github_org (Some url) = ssh_org_split_once url))
  ∧ get_github_org (Some "git@github.com:acme/repo.git") = Some "acme".
Proof.
  split; [|done]. intros url Hs. rewrite (get_github_org_ssh url Hs).
  split_and!; [done| |].
  - intros Hc. destruct (Str.split_once ":" url) as [h [t|]] eqn:E; [|done].
    apply split_once_Some in E as [-> _]. exfalso. revert Hc. clear.
    induction h as [|c h IH]; simpl; [done|].
    by destruct (Ascii.eqb c ":").
  - intros host rest E Hc. unfold ssh_org_split_once. rewrite E.
    by rewrite split_once_before, before_before.
Qed.

Lemma ssh_org_second_part_witness :
  Str.startswith "git@github.com:acme/repo.git" "git@" = true
  ∧ get_github_org (Some "git@github.com:acme/repo.git")
    = ssh_org_split_once "git@github.com:acme/repo.git".
Proof.
  split; [reflexivity|].
  destruct (proj1 ssh_org_second_part "git@github.com:acme/repo.git" eq_refl)
    as (_ & _ & Hagree).
  apply (Hagree "git@github.com" "acme/repo.git"); reflexivity.
Defined.

(** C4, as stated, fails when a further [:] precedes the first [/]: the
    code cuts the second part at that [:] too, the split-once reading does
    not. *)
Lemma ssh_org_split_once_differs :
  Str.startswith "git@h:a:b/c" "git@" = true
  ∧ get_github_org (Some "git@h:a:b/c") = Some "a"
  ∧ ssh_org_split_once "git@h:a:b/c" = Some "a:b"
  ∧ get_github_org (Some "git@h:a:b/c") ≠ ssh_org_split_once "git@h:a:b/c".
Proof. by split_and!. Qed.

(** C5. For every non-null URL that starts with [http] (such a URL does not
    start with [git@]), [get_github_org] splits on [/] and returns the
    segment at index 3 when there are more than three segments, [None]
    otherwise; a null URL gives [None]; and
    [https://github.com/acme/repo] gives [acme]. *)
Theorem http_org_fourth_segment :
  (∀ url : string, Str.startswith url "http" = true →
    Str.startswith url "git@" = false
    ∧ get_github_org (Some url) = Str.split "/" url !! 3
    ∧ ((3 < length (Str.split "/" url))%nat →
         get_github_org (Some url) = Some (nth 3 (Str.split "/" url) EmptyString))
    ∧ ((length (Str.split "/" url) ≤ 3)%nat → get_github_org (Some url) = None))
  ∧ get_github_org None = None
  ∧ get_github_org (Some "https://github.com/acme/repo") = Some "acme".
Proof.
  split; [|done]. intros url Hs. pose proof (ssh_not_http url Hs) as Hg.
  unfold get_github_org. rewrite Hg, Hs. split; [done|].
  destruct (Str.split "/" url) as [|a [|b [|c [|d l]]]]; simpl;
    split_and!; first [done|lia].
Qed.

Lemma http_org_fourth_segment_witness :
  Str.startswith "https://github.com/acme/repo" "http" = true
  ∧ get_github_org (Some "https://github.com/acme/repo") = Some "acme".
Proof.
  split; [reflexivity|].
  destruct (proj1 http_org_fourth_segment "https://github.com/acme/repo" eq_refl)
    as (_ & Hseg & _).
  rewrite Hseg. reflexivity.
Defined.

(** ** Workloads created per month *)

Section MonthlyFacts.
Variable parse : string → option Timestamp.
Context {V : Type}.
Implicit Types (df : list service_row) (ws : list (string * V))
  (col : list (option string)).

Lemma to_datetime_Return col :
  Forall (λ c, ∀ s, c = Some s → is_Some (parse s)) col →
  to_datetime parse col = Return ((λ c, c ≫= parse) <$> col).
Proof.
  induction 1 as [|c col Hc _ IH]; [done|]. csimpl. rewrite IH.
  destruct c as [s|]; simpl; [|done].
  by destruct (Hc s eq_refl) as [t ->].
Qed.

Lemma to_datetime_Raise col :
  Exists (λ c, ∃ s, c = Some s ∧ parse s = None) col →
  to_datetime parse col = Raise DateParseError.
Proof.
  induction 1 as [c col (s & -> & Hs)|c col _ IH]; simpl.
  - by rewrite Hs.
  - rewrite IH. destruct c as [s|]; simpl; [|done]. by destruct (parse s).
Qed.

Lemma selected_column ws df (P : option string → Prop) :
  Forall P (created_at <$> List.filter (λ r, workload_mask ws (service r)) df)
  ↔ ∀ r, r ∈ df → workload_mask ws (service r) = true → P (created_at r).
Proof.
  rewrite Forall_fmap, Forall_forall. split.
  - intros H r Hr Hm. apply H, list_elem_of_In, filter_In.
    by rewrite <- list_elem_of_In.
  - intros H r [Hr Hm]%list_elem_of_In%filter_In. apply H; [|done].
    by apply list_elem_of_In.
Qed.

Lemma count_by_from (acc : gmap string nat) (keys : list (option string)) k :
  default 0 (foldl (λ counts key,
                      match key with
                      | Some k => <[k := S (default 0 (counts !! k))]> counts
                      | None => counts
                      end) acc keys !! k)
  = default 0 (acc !! k)
    + length (List.filter (λ x, bool_decide (x = Some k)) keys).
Proof.
  revert acc. induction keys as [|[k'|] keys IH]; intros acc; simpl; [lia| |done].
  rewrite IH. destruct (decide (k' = k)) as [->|Hne].
  - rewrite lookup_insert_eq, bool_decide_true by done. simpl. lia.
  - rewrite lookup_insert_ne, bool_decide_false by congruence. done.
Qed.

Lemma count_by_lookup (keys : list (option string)) k :
  default 0 (count_by keys !! k)
  = length (List.filter (λ x, bool_decide (x = Some k)) keys).
Proof. unfold count_by. by rewrite count_by_from, lookup_empty. Qed.

Lemma month_name_inj m1 m2 : month_name m1 = month_name m2 → m1 = m2.
Proof. by destruct m1, m2. Qed.

Lemma reindex_get counts m :
  Dict.get (month_name m) (reindex counts)
  = Some (default 0 (counts !! month_name m)).
Proof. by destruct m. Qed.

(** Counting a month name among the group keys is counting the selected
    rows created in that month. *)
Lemma count_created ws df m :
  length (List.filter (λ x, bool_decide (x = Some (month_name m)))
            (option_map (month_name ∘ ts_month)
               <$> ((λ c, c ≫= parse)
                      <$> (created_at
                             <$> List.filter (λ r, workload_mask ws (service r)) df))))
  = length (List.filter (created_in parse ws m) df).
Proof.
  induction df as [|r df IH]; [done|]. unfold created_in in *. csimpl.
  destruct (workload_mask ws (service r)); csimpl; [|done].
  destruct (created_at r) as [s|]; csimpl; [|done].
  destruct (parse s) as [t|]; csimpl; [|done].
  destruct (decide (ts_month t = m)) as [Hm|Hm].
  - rewrite !bool_decide_true by (by rewrite ?Hm). csimpl. by rewrite IH.
  - rewrite !bool_decide_false; [done..|].
    intros [= ?%month_name_inj]. done.
Qed.

Lemma analyze_monthly_creations_Return ws df :
  all_parse parse ws df →
  ∃ d, analyze_monthly_creations parse df ws = Return d
    ∧ d.*1 = all_months
    ∧ ∀ m, Dict.get (month_name m) d
           = Some (length (List.filter (created_in parse ws m) df)).
Proof.
  intros Hall. unfold analyze_monthly_creations.
  rewrite to_datetime_Return.
  - eexists. split; [reflexivity|]. split; [done|].
    intros m. by rewrite reindex_get, count_by_lookup, count_created.
  - apply selected_column. intros r Hr Hm s Hs. by apply (Hall r s).
Qed.

Lemma analyze_monthly_creations_Raise ws df :
  some_unparseable parse ws df →
  analyze_monthly_creations parse df ws = Raise DateParseError.
Proof.
  intros (r & s & Hr & Hm & Hs & Hp). unfold analyze_monthly_creations.
  rewrite to_datetime_Raise; [done|].
  apply Exists_exists. exists (Some s). split; [|by exists s].
  rewrite <- Hs. apply list_elem_of_fmap_2.
  by rewrite list_elem_of_In, filter_In, <- list_elem_of_In.
Qed.

End MonthlyFacts.

Section MonthlyDichotomy.
Variable parse : string → option Timestamp.
Context {V : Type}.
Implicit Types (df : list service_row) (ws : list (string * V)).

Lemma parse_dichotomy ws df :
  all_parse parse ws df ∨ some_unparseable parse ws df.
Proof.
  induction df as [|r df [IH|(r' & s & Hr & H)]].
  - left. intros r s Hr. by apply elem_of_nil in Hr.
  - destruct (workload_mask ws (service r)) eqn:Hm.
    + destruct (created_at r) as [s|] eqn:Hs.
      * destruct (parse s) as [t|] eqn:Hp.
        -- left. intros r' s' [->|Hr]%elem_of_cons Hm' Hs'; [|by eapply IH].
           simplify_eq. by rewrite Hp.
        -- right. exists r, s. split_and!; [by left|done..].
      * left. intros r' s' [->|Hr]%elem_of_cons Hm' Hs'; [|by eapply IH].
        congruence.
    + left. intros r' s' [->|Hr]%elem_of_cons Hm' Hs'; [|by eapply IH].
      congruence.
  - right. exists r', s. split; [by right|done].
Qed.

End MonthlyDichotomy.


Lemma march_all_parse : all_parse parse_iso [("app", ())] march_df.
Proof.
  intros r s Hr _ Hs. unfold march_df in Hr.
  repeat (apply elem_of_cons in Hr as [->|Hr]); [..|by apply elem_of_nil in Hr];
    simplify_eq/=; by eexists.
Defined.




(** ** Flattening a user node *)

Section Flatten.

Lemma for_each_names items :
  forallb (λ g, bool_decide (is_Some (is_group g))) items = true →
  for_each (λ g, subscript g "name") items = Return (JStr <$> omap is_group items).
Proof.
  induction items as [|g items IH]; [done|]. cbn [forallb].
  intros [Hg Hitems]%andb_true_iff. apply bool_decide_eq_true in Hg as [s Hs].
  cbn [for_each]. rewrite (IH Hitems). cbn [omap list_omap]. rewrite Hs.
  unfold is_group in Hs. destruct g as [| | | | |fields]; try done.
  unfold subscript. destruct (Dict.get "name" fields) as [[]|]; by simplify_eq.
Qed.

Lemma for_each_as_str (l : list string) : for_each as_str (JStr <$> l) = Return l.
Proof. induction l as [|s l IH]; [done|]. csimpl. by rewrite IH. Qed.

End Flatten.

Section FlattenFields.

Lemma subscript_get fields k v :
  Dict.get k fields = Some v → subscript (JObj fields) k = Return v.
Proof. intros H. unfold subscript. by rewrite H. Qed.

Lemma subscript_missing fields k :
  Dict.get k fields = None → subscript (JObj fields) k = Raise (KeyError k).
Proof. intros H. unfold subscript. by rewrite H. Qed.

(** A null or empty [roles] gives [False]; an object gives its [admin]. *)
Lemma admin_field_shaped roles :
  roles_shaped roles = true →
  ∃ a, admin_field roles = Return a
    ∧ (truthy roles = false → a = JBool false)
    ∧ (truthy roles = true → subscript roles "admin" = Return a).
Proof.
  destruct roles as [| | | | |fields]; try done.
  - by exists (JBool false).
  - intros [a Ha]%bool_decide_eq_true. unfold admin_field.
    rewrite (subscript_get _ _ _ Ha).
    destruct fields as [|f fields]; [done|]. by exists a.
Qed.

Lemma groups_field_shaped groups :
  groups_shaped groups = true →
  groups_field groups
  = Return (Str.join ";" match groups with
                         | JArr items => omap is_group items
                         | _ => []
                         end).
Proof.
  destruct groups as [| | | |items|]; try done.
  destruct items as [|g items]; [done|]. intros Hg.
  unfold groups_field. change (truthy (JArr (g :: items))) with true.
  cbn [iterate]. rewrite bind_Return, (for_each_names _ Hg), bind_Return.
  by rewrite for_each_as_str, bind_Return.
Qed.

End FlattenFields.

(** C8. User flattening.  For every user node of the shape the query asks
    for, [process_user] returns a row and raises nothing; when [roles] is
    null (or otherwise falsy) the row has [admin = False]; the [groups]
    field is the group names joined with [;], and the empty string when the
    user has no groups. *)
Theorem process_user_defaults :
  ∀ user : json, user_node user = true →
    ∃ r, process_user user = Return r
      ∧ (subscript user "roles" = Return JNull → row_admin r = JBool false)
      ∧ (∀ roles, subscript user "roles" = Return roles → truthy roles = false →
           row_admin r = JBool false)
      ∧ row_groups r = Str.join ";" (group_names user)
      ∧ (group_names user = [] → row_groups r = EmptyString).
Proof.
  intros [| | | | |fields]; try done. unfold user_node.
  intros [[Hf Hr]%andb_true_iff Hg]%andb_true_iff.
  cbn [forallb user_fields] in Hf.
  rewrite !andb_true_iff, !bool_decide_eq_true in Hf.
  destruct Hf as ([id Hid] & [name Hname] & [email Hemail] & [roles Hroles]
    & [pid Hpid] & [del Hdel] & [prof Hprof] & [ins Hins] & [upd Hupd]
    & [groups Hgroups] & _).
  rewrite Hroles in Hr. rewrite Hgroups in Hg. cbn [from_option] in Hr, Hg.
  destruct (admin_field_shaped roles Hr) as (a & Ha & Hfalse & _).
  unfold process_user, group_names.
  rewrite (subscript_get _ _ _ Hid), (subscript_get _ _ _ Hname),
    (subscript_get _ _ _ Hemail), (subscript_get _ _ _ Hroles),
    (subscript_get _ _ _ Hpid), (subscript_get _ _ _ Hdel),
    (subscript_get _ _ _ Hprof), (subscript_get _ _ _ Hins),
    (subscript_get _ _ _ Hupd), (subscript_get _ _ _ Hgroups).
  rewrite !bind_Return, Ha, !bind_Return, (groups_field_shaped groups Hg),
    bind_Return.
  eexists. split; [reflexivity|]. cbn [row_admin row_groups].
  split_and!.
  - intros [= ->]. by apply Hfalse.
  - intros roles' [= <-]. apply Hfalse.
  - by destruct groups.
  - intros Hnone. destruct groups; try done. by rewrite Hnone.
Qed.

Lemma process_user_defaults_witness :
  ∃ r, process_user
         (JObj [("id", JStr "u1"); ("name", JStr "Ann"); ("email", JStr "ann@x.io");
                ("roles", JNull); ("pluralId", JNull); ("deletedAt", JNull);
                ("profile", JNull); ("insertedAt", JStr "2024-01-01");
                ("updatedAt", JStr "2024-01-02");
                ("groups", JArr [JObj [("name", JStr "dev")];
                                 JObj [("name", JStr "ops")]])])
       = Return r
    ∧ row_admin r = JBool false
    ∧ row_groups r = "dev;ops".
Proof.
  edestruct process_user_defaults as (r & Hr & Hadmin & _ & Hgroups & _);
    [|exists r; split; [exact Hr|]].
  - reflexivity.
  - split; [by apply Hadmin|exact Hgroups].
Defined.

(** ** Counting developers *)

Lemma length_unique (l : list (option string)) :
  length (unique l) = size (list_to_set l : gset (option string)).
Proof.
  rewrite <- (size_list_to_set (C := gset (option string)) (unique l))
    by apply NoDup_unique.
  f_equal. apply set_eq. intros x.
  by rewrite !elem_of_list_to_set, elem_of_unique.
Qed.



(** * Further properties of the code *)

(** ** The classifiers *)

Section ClassifierFacts.

Lemma lower_ascii_hyphen c : Ascii.eqb (Str.lower_ascii c) "-" = Ascii.eqb c "-".
Proof. by destruct c as [[] [] [] [] [] [] [] []]. Qed.

Lemma lower_ascii_idem c : Str.lower_ascii (Str.lower_ascii c) = Str.lower_ascii c.
Proof. by destruct c as [[] [] [] [] [] [] [] []]. Qed.

Lemma lower_idem s : Str.lower (Str.lower s) = Str.lower s.
Proof. induction s as [|c s IH]; simpl; [done|]. by rewrite lower_ascii_idem, IH. Qed.

(** Lower-casing a name lower-cases its hyphen-separated tokens. *)
Lemma split_lower s : Str.split "-" (Str.lower s) = Str.lower <$> Str.split "-" s.
Proof.
  induction s as [|c s IH]; [done|].
  cbn [Str.lower Str.split]. rewrite lower_ascii_hyphen, IH.
  destruct (Ascii.eqb c "-"); [done|]. by destruct (Str.split "-" s).
Qed.

Lemma get_environment_loop_lower parts :
  get_environment_loop (Str.lower <$> parts) = get_environment_loop parts.
Proof.
  induction parts as [|p parts IH]; [done|]. csimpl. cbn [get_environment_loop].
  by rewrite lower_idem, IH.
Qed.

Lemma contains_before sep s : Str.contains sep (before sep s) = false.
Proof.
  induction s as [|c s IH]; [done|]. simpl.
  destruct (Ascii.eqb c sep) eqn:E; [done|]. simpl. by rewrite E, IH.
Qed.

Lemma contains_before_mono c sep s :
  Str.contains c s = false → Str.contains c (before sep s) = false.
Proof.
  induction s as [|d s IH]; [done|]. simpl.
  intros [Hd Hs]%orb_false_iff. destruct (Ascii.eqb d sep); [done|].
  simpl. by rewrite Hd, IH.
Qed.

(** No segment that [split] returns contains the separator. *)
Lemma split_segments sep s x : x ∈ Str.split sep s → Str.contains sep x = false.
Proof.
  revert x. induction s as [|c s IH]; intros x; simpl.
  - by intros ->%list_elem_of_singleton.
  - destruct (Ascii.eqb c sep) eqn:E.
    + intros [->|Hx]%elem_of_cons; [done|by apply IH].
    + destruct (Str.split sep s) as [|h t]; simpl.
      * intros ->%list_elem_of_singleton. simpl. by rewrite E.
      * intros [->|Hx]%elem_of_cons.
        -- simpl. rewrite E. apply IH. by left.
        -- apply IH. by right.
Qed.

End ClassifierFacts.

(** X1. Whatever [get_environment] finds is one of the seven labels, in
    lower case, and classifying that label gives the label back. *)
Theorem get_environment_range :
  ∀ (name e : string), get_environment (Some name) = Return (Some e) →
    e ∈ environments
    ∧ Str.lower e = e
    ∧ get_environment (Some e) = Return (Some e).
Proof.
  intros name e [= He].
  apply get_environment_loop_Some in He as (_ & token & _ & _ & _ & Hin & ->).
  split; [done|].
  unfold environments in Hin.
  repeat (apply elem_of_cons in Hin as [->|Hin]); [by split..|].
  by apply elem_of_nil in Hin.
Qed.

Lemma get_environment_range_witness :
  "prod" ∈ environments ∧ get_environment (Some "prod") = Return (Some "prod").
Proof.
  destruct (get_environment_range "foo-PROD-bar" "prod" eq_refl) as (Hin & _ & Hfix).
  by split.
Defined.

(** X2. The environment of a service name does not depend on letter case:
    two names with the same lower-casing get the same answer. *)
Theorem get_environment_case_insensitive :
  ∀ a b : string, Str.lower a = Str.lower b →
    get_environment (Some a) = get_environment (Some b).
Proof.
  intros a b Hab. unfold get_environment. f_equal.
  rewrite <- (get_environment_loop_lower (Str.split "-" a)).
  rewrite <- (get_environment_loop_lower (Str.split "-" b)).
  by rewrite <- !split_lower, Hab.
Qed.

Lemma get_environment_case_insensitive_witness :
  get_environment (Some "Api-STAGING-eu") = get_environment (Some "api-Staging-EU").
Proof. apply get_environment_case_insensitive. reflexivity. Defined.

(** X3. An organization label never contains a [/]; one taken from a
    [git@] URL contains no [:] either. *)
Theorem get_github_org_no_separator :
  ∀ (url org : string), get_github_org (Some url) = Some org →
    Str.contains "/" org = false
    ∧ (Str.startswith url "git@" = true → Str.contains ":" org = false).
Proof.
  intros url org Horg. destruct (Str.startswith url "git@") eqn:Hgit.
  - rewrite (get_github_org_ssh url Hgit) in Horg.
    destruct (Str.split_once ":" url) as [h [rest|]]; [|done].
    injection Horg as <-. split; [apply contains_before|].
    intros _. apply contains_before_mono, contains_before.
  - split; [|done]. unfold get_github_org in Horg. rewrite Hgit in Horg.
    destruct (Str.startswith url "http"); [|done].
    destruct (3 <? length (Str.split "/" url))%nat eqn:Hlen; [|done].
    injection Horg as <-. apply (split_segments "/" url).
    apply Nat.ltb_lt in Hlen. apply list_elem_of_In, nth_In. done.
Qed.

Lemma get_github_org_no_separator_witness :
  Str.contains "/" "acme" = false.
Proof.
  by destruct (get_github_org_no_separator "https://github.com/acme/repo" "acme" eq_refl).
Defined.

(** ** Workloads by environment and by organization *)

Section Breakdown.
Implicit Types (ws : list (string * workspace)) (df rows : list service_row)
  (d : gmap string (gset string)).

Lemma elem_of_add_if_truthy label name d k x :
  x ∈ default ∅ (add_if_truthy label name d !! k)
  ↔ x ∈ default ∅ (d !! k) ∨ (label = Some k ∧ k ≠ EmptyString ∧ x = name).
Proof.
  unfold add_if_truthy, defaultdict_add. destruct label as [l|]; [|naive_solver].
  destruct (String.eqb_spec l "") as [->|Hl]; [naive_solver|].
  destruct (decide (l = k)) as [->|Hne].
  - rewrite lookup_insert_eq. simpl. rewrite elem_of_union, elem_of_singleton.
    naive_solver.
  - rewrite lookup_insert_ne by done. naive_solver.
Qed.

Lemma populated_add_if_truthy label name d :
  populated d → populated (add_if_truthy label name d).
Proof.
  intros [Hnil Hne]. unfold add_if_truthy, defaultdict_add.
  destruct label as [l|]; [|done].
  destruct (String.eqb_spec l "") as [->|Hl]; [done|]. split.
  - by rewrite lookup_insert_ne.
  - intros k s. destruct (decide (l = k)) as [->|Hk].
    + rewrite lookup_insert_eq. intros [= <-]. set_solver.
    + rewrite lookup_insert_ne by done. apply Hne.
Qed.

Lemma env_map_cons k w ws p :
  env_map ((k, w) :: ws) p = if decide (k = p) then env_workloads w else env_map ws p.
Proof.
  unfold env_map. simpl. destruct (String.eqb_spec k p); by case_decide.
Qed.

Lemma org_map_cons k w ws p :
  org_map ((k, w) :: ws) p = if decide (k = p) then org_workloads w else org_map ws p.
Proof.
  unfold org_map. simpl. destruct (String.eqb_spec k p); by case_decide.
Qed.

(** One service: what [assign] does to the two breakdowns. *)
Lemma assign_breakdown name repo ws :
  ∃ ws', assign name repo ws = Return ws'
    ∧ ∀ p, (env_map ws' p, org_map ws' p)
           = if decide (first_match name (Dict.keys ws) = Some p
                        ∧ Str.endswith name "-runtime" = false)
             then (add_if_truthy (get_environment_loop (Str.split "-" name)) name
                     (env_map ws p),
                   add_if_truthy (get_github_org repo) name (org_map ws p))
             else (env_map ws p, org_map ws p).
Proof.
  induction ws as [|[k w] ws IH].
  - exists []. split; [done|]. intros p. by rewrite decide_False by naive_solver.
  - unfold Dict.keys in *. csimpl.
    destruct (Str.startswith name (k +:+ "-")) eqn:Hs.
    + destruct (Str.endswith name "-runtime") eqn:He; simpl.
      * exists ((k, w) :: ws). split; [done|].
        intros p. by rewrite decide_False by naive_solver.
      * eexists. split; [reflexivity|].
        intros p. rewrite !env_map_cons, !org_map_cons. simpl.
        destruct (decide (k = p)) as [->|Hne].
        -- by rewrite decide_True.
        -- by rewrite decide_False by naive_solver.
    + destruct IH as (ws' & -> & Hw). rewrite bind_Return.
      exists ((k, w) :: ws'). split; [done|].
      intros p. rewrite !env_map_cons, !org_map_cons.
      destruct (decide (k = p)) as [->|Hne]; [|apply Hw].
      rewrite decide_False; [done|].
      intros [[_ Hp]%first_match_Some _]. congruence.
Qed.

End Breakdown.

Section BreakdownPass.
Implicit Types (ws : list (string * workspace)) (df rows : list service_row).

Lemma env_label_nonempty parts e :
  get_environment_loop parts = Some e → e ≠ EmptyString.
Proof.
  intros (_ & token & _ & _ & _ & Hin & ->)%get_environment_loop_Some.
  intros Heq. rewrite Heq in Hin. apply mem_iff in Hin. by vm_compute in Hin.
Qed.

Lemma env_workloads_of_map ws p e :
  env_workloads_of ws p e = default ∅ (env_map ws p !! e).
Proof. unfold env_workloads_of, env_map. by destruct (Dict.get p ws). Qed.

Lemma org_workloads_of_map ws p o :
  org_workloads_of ws p o = default ∅ (org_map ws p !! o).
Proof. unfold org_workloads_of, org_map. by destruct (Dict.get p ws). Qed.

Lemma assign_populated name repo ws ws' :
  assign name repo ws = Return ws' →
  (∀ p, populated (env_map ws p) ∧ populated (org_map ws p)) →
  ∀ p, populated (env_map ws' p) ∧ populated (org_map ws' p).
Proof.
  intros Hret Hpop p. destruct (assign_breakdown name repo ws) as (ws1 & Hret1 & Hb).
  assert (ws1 = ws') as -> by congruence.
  specialize (Hb p). destruct (Hpop p) as [He Ho].
  destruct (decide _); injection Hb as -> ->; [|done].
  split; by apply populated_add_if_truthy.
Qed.

Lemma second_pass_breakdown rows ws :
  ∃ ws', second_pass rows ws = Return ws'
    ∧ (∀ p e x, x ∈ env_workloads_of ws' p e
         ↔ x ∈ env_workloads_of ws p e
           ∨ (Some x ∈ service <$> rows
              ∧ first_match x (Dict.keys ws) = Some p
              ∧ Str.endswith x "-runtime" = false
              ∧ get_environment_loop (Str.split "-" x) = Some e))
    ∧ (∀ p o x, x ∈ org_workloads_of ws' p o
         ↔ x ∈ org_workloads_of ws p o
           ∨ (∃ r, r ∈ rows ∧ service r = Some x
                ∧ first_match x (Dict.keys ws) = Some p
                ∧ Str.endswith x "-runtime" = false
                ∧ get_github_org (repository r) = Some o ∧ o ≠ EmptyString))
    ∧ ((∀ p, populated (env_map ws p) ∧ populated (org_map ws p)) →
       ∀ p, populated (env_map ws' p) ∧ populated (org_map ws' p)).
Proof.
  revert ws. induction rows as [|row rows IH]; intros ws; csimpl.
  - exists ws. split_and!; [done| | |done].
    + intros p e x. set_solver.
    + intros p o x. split; [by left|]. intros [?|(r & Hr & _)]; [done|].
      by apply elem_of_nil in Hr.
  - destruct (service row) as [s|] eqn:Hrow.
    + destruct (assign_spec s (repository row) ws) as (ws1 & Hret1 & Hk1 & _).
      destruct (assign_breakdown s (repository row) ws) as (ws1' & Hret1' & Hb).
      assert (ws1' = ws1) as -> by congruence. rewrite Hret1, bind_Return.
      destruct (IH ws1) as (ws' & -> & Henv & Horg & Hpop).
      exists ws'. split_and!; [done| | |].
      * intros p e x. rewrite Henv, Hk1, elem_of_cons, !env_workloads_of_map.
        specialize (Hb p). clear IH Henv Horg Hpop.
        destruct (decide (first_match s (Dict.keys ws) = Some p
                          ∧ Str.endswith s "-runtime" = false)) as [Hd|Hd];
          injection Hb as -> _.
        -- rewrite elem_of_add_if_truthy. destruct Hd as [Hd1 Hd2]. split.
           ++ intros [[?|(He & _ & ->)]|(? & ?)]; [by left| |by right; split; [right|]].
              right. by split; [left|].
           ++ intros [?|([[= ->]|?] & Hrest)]; [by left; left| |by right].
              destruct Hrest as (_ & _ & He).
              left. right. split_and!; [done| |done].
              by apply (env_label_nonempty _ _ He).
        -- split.
           ++ intros [?|(? & ?)]; [by left|]. right. by split; [right|].
           ++ intros [?|([[= ->]|?] & Hrest)]; [by left| |by right].
              destruct Hd. by destruct Hrest as (? & ? & _).
      * intros p o x. rewrite Horg, Hk1, !org_workloads_of_map.
        specialize (Hb p). clear IH Henv Horg Hpop.
        destruct (decide (first_match s (Dict.keys ws) = Some p
                          ∧ Str.endswith s "-runtime" = false)) as [Hd|Hd];
          injection Hb as _ ->.
        -- rewrite elem_of_add_if_truthy. destruct Hd as [Hd1 Hd2]. split.
           ++ intros [[?|(Ho & Hne & ->)]|(r & Hr & ?)]; [by left| |].
              ** right. exists row. by split_and!; [left|..].
              ** right. exists r. by split; [right|].
           ++ intros [?|(r & [->|Hr]%elem_of_cons & Hrest)]; [by left; left| |].
              ** destruct Hrest as (Hs & _ & _ & Ho & Hne).
                 left. right. rewrite Hrow in Hs. injection Hs as ->. done.
              ** right. by exists r.
        -- split.
           ++ intros [?|(r & Hr & ?)]; [by left|].
              right. exists r. by split; [right|].
           ++ intros [?|(r & [->|Hr]%elem_of_cons & Hrest)]; [by left| |].
              ** destruct Hrest as (Hs & ? & ? & _).
                 rewrite Hrow in Hs. injection Hs as ->. by destruct Hd.
              ** right. by exists r.
      * intros Hws. apply Hpop. by apply (assign_populated s (repository row) ws).
    + destruct (IH ws) as (ws' & -> & Henv & Horg & Hpop).
      exists ws'. split_and!; [done| | |done].
      * intros p e x. rewrite Henv, elem_of_cons. clear. naive_solver.
      * intros p o x. rewrite Horg. split.
        -- intros [?|(r & Hr & ?)]; [by left|].
           right. exists r. by split; [right|].
        -- intros [?|(r & [->|Hr]%elem_of_cons & Hrest)]; [by left| |].
           ++ destruct Hrest as [Hs _]. congruence.
           ++ right. by exists r.
Qed.

End BreakdownPass.

Section BreakdownResult.
Implicit Types (ws : list (string * workspace)) (df : list service_row).

Lemma discover_all_new cells ws :
  (∀ p w, Dict.get p ws = Some w → w = new_workspace p) →
  ∀ p w, Dict.get p (fold_left discover cells ws) = Some w → w = new_workspace p.
Proof.
  revert ws. induction cells as [|c cells IH]; intros ws Hws; simpl; [done|].
  apply IH. intros p w. destruct c as [s|]; simpl; [|apply Hws].
  destruct (Str.endswith s "-runtime"); [|apply Hws].
  rewrite get_set. case_decide as Hp; [|apply Hws]. rewrite Hp. by intros [= <-].
Qed.

Lemma first_pass_new df p w :
  Dict.get p (first_pass df) = Some w → w = new_workspace p.
Proof. by apply discover_all_new. Qed.

Lemma first_pass_breakdown_empty df p :
  env_map (first_pass df) p = ∅ ∧ org_map (first_pass df) p = ∅.
Proof.
  unfold env_map, org_map.
  destruct (Dict.get p (first_pass df)) as [w|] eqn:Hw; [|done].
  by rewrite (first_pass_new df p w Hw).
Qed.

(** Everything the second pass records, for the table [analyze_services]
    returns. *)
Lemma analyze_services_breakdown df :
  ∃ ws, analyze_services df
        = Return (length ws,
                  foldl (λ acc e, acc + size (workloads e.2)) 0 ws,
                  prod_map id stat_of <$> ws,
                  ws)
    ∧ (∀ p e x, x ∈ env_workloads_of ws p e
         ↔ x ∈ workloads_of ws p
           ∧ get_environment_loop (Str.split "-" x) = Some e)
    ∧ (∀ p o x, x ∈ org_workloads_of ws p o
         ↔ x ∈ workloads_of ws p ∧ o ≠ EmptyString
           ∧ ∃ r, r ∈ df ∧ service r = Some x
                  ∧ get_github_org (repository r) = Some o)
    ∧ (∀ p, populated (env_map ws p) ∧ populated (org_map ws p)).
Proof.
  destruct (analyze_services_spec df) as (ws & Hret & Hk & Hw).
  exists ws. split; [done|].
  destruct (second_pass_spec df (first_pass df)) as (ws1 & Hret1 & _).
  destruct (second_pass_breakdown df (first_pass df))
    as (ws2 & Hret2 & Henv & Horg & Hpop).
  assert (ws1 = ws2) as <- by congruence.
  assert (ws1 = ws) as ->.
  { unfold analyze_services in Hret. rewrite Hret1, bind_Return in Hret.
    by injection Hret. }
  split_and!.
  - intros p e x. rewrite Henv, Hw, env_workloads_of_map.
    destruct (first_pass_breakdown_empty df p) as [-> _].
    rewrite lookup_empty, <- Hk. simpl. clear. set_solver.
  - intros p o x. rewrite Horg, Hw, org_workloads_of_map.
    destruct (first_pass_breakdown_empty df p) as [_ ->].
    rewrite lookup_empty, <- Hk. simpl. clear. split.
    + intros [[]%not_elem_of_empty|(r & Hr & Hs & Hm & He & Ho & Hne)].
      split_and!; [|done..|by exists r].
      rewrite <- Hs. by apply list_elem_of_fmap_2.
    + intros ((_ & Hm & He) & Hne & r & Hr & Hs & Ho). right. by exists r.
  - apply Hpop. intros p. destruct (first_pass_breakdown_empty df p) as [-> ->].
    by split.
Qed.

End BreakdownResult.

(** X4. Workloads by environment.  In the table [analyze_services]
    returns, a name is recorded under the environment [e] of a workspace
    exactly when it is a workload of that workspace and [get_environment]
    gives [e] for it.  So the environment sets are subsets of the workload
    set, sets of two different environments are disjoint, and only the
    seven labels ever hold a workload. *)
Theorem env_workloads_characterised :
  ∀ df : list service_row,
    ∃ n total stats ws,
      analyze_services df = Return (n, total, stats, ws)
      ∧ (∀ p e x, x ∈ env_workloads_of ws p e
           ↔ x ∈ workloads_of ws p
             ∧ get_environment (Some x) = Return (Some e))
      ∧ (∀ p e, env_workloads_of ws p e ⊆ workloads_of ws p)
      ∧ (∀ p e1 e2, e1 ≠ e2 → env_workloads_of ws p e1 ## env_workloads_of ws p e2)
      ∧ (∀ p e, env_workloads_of ws p e ≠ ∅ → e ∈ environments).
Proof.
  intros df. destruct (analyze_services_breakdown df) as (ws & Hret & Henv & _).
  eexists _, _, _, ws. split; [exact Hret|].
  assert (Hchar : ∀ p e x, x ∈ env_workloads_of ws p e
           ↔ x ∈ workloads_of ws p
             ∧ get_environment (Some x) = Return (Some e)).
  { intros p e x. rewrite Henv. unfold get_environment.
    split; intros [? H]; (split; [done|]); [by rewrite H|by injection H]. }
  split_and!; [done| | |].
  - intros p e x [? _]%Hchar. done.
  - intros p e1 e2 Hne x [_ H1]%Hchar [_ H2]%Hchar. congruence.
  - intros p e [x Hx%Hchar]%set_choose_L.
    destruct Hx as [_ [= Hx]].
    by apply get_environment_loop_Some in Hx as (_ & token & _ & _ & _ & Hin & ->).
Qed.

(** X5. Workloads by organization.  A name is recorded under the
    organization [o] of a workspace exactly when it is a workload of that
    workspace, [o] is not the empty string, and some row with that name has
    a repository from which [get_github_org] extracts [o].  A workload
    whose rows give different organizations is recorded under each. *)
Theorem org_workloads_characterised :
  ∀ df : list service_row,
    ∃ n total stats ws,
      analyze_services df = Return (n, total, stats, ws)
      ∧ (∀ p o x, x ∈ org_workloads_of ws p o
           ↔ x ∈ workloads_of ws p ∧ o ≠ EmptyString
             ∧ ∃ r, r ∈ df ∧ service r = Some x
                    ∧ get_github_org (repository r) = Some o)
      ∧ (∀ p o, org_workloads_of ws p o ⊆ workloads_of ws p)
      ∧ (∀ p, org_workloads_of ws p EmptyString = ∅).
Proof.
  intros df. destruct (analyze_services_breakdown df) as (ws & Hret & _ & Horg & _).
  eexists _, _, _, ws. split; [exact Hret|]. split_and!; [done| |].
  - intros p o x [? _]%Horg. done.
  - intros p. apply set_eq. intros x. rewrite Horg. set_solver.
Qed.

(** ** The statistics of a workspace *)

Section Statistics.
Implicit Types (ws : list (string * workspace)) (df : list service_row).

Lemma sorted_spec (s : gset string) :
  Sorted String.le (sorted s)
  ∧ NoDup (sorted s)
  ∧ (∀ x, x ∈ sorted s ↔ x ∈ s)
  ∧ length (sorted s) = size s.
Proof.
  unfold sorted. pose proof (merge_sort_Permutation String.le (elements s)) as Hp.
  split_and!.
  - apply (Sorted_merge_sort _).
  - rewrite Hp. apply NoDup_elements.
  - intros x. by rewrite Hp, elem_of_elements.
  - by rewrite Hp.
Qed.

Lemma get_stats p ws :
  Dict.get p (prod_map id stat_of <$> ws) = stat_of <$> Dict.get p ws.
Proof.
  induction ws as [|[k w] ws IH]; [done|]. csimpl.
  by destruct (String.eqb k p).
Qed.

(** A distribution has an entry exactly for the labels that hold a
    workload, and the entry is the number of workloads. *)
Lemma distribution_lookup (d : gmap string (gset string)) k :
  populated d →
  (size <$> d) !! k
  = if decide (default ∅ (d !! k) = ∅) then None else Some (size (default ∅ (d !! k))).
Proof.
  intros [_ Hne]. rewrite lookup_fmap. destruct (d !! k) as [s|] eqn:Hs; simpl.
  - by rewrite decide_False by by eapply Hne.
  - by rewrite decide_True.
Qed.

End Statistics.

(** X6. The statistics of a workspace.  Every entry of [workspace_stats]
    belongs to a discovered prefix; its total is the size of the workload
    set; its list of names is that set in ascending order without
    repetition; its two distributions have an entry exactly for the labels
    that hold at least one workload, the entry being their number (never
    0); and the lists of environments and organizations are those labels in
    ascending order. *)
Theorem workspace_stats_entries :
  ∀ df : list service_row,
    ∃ n total stats ws,
      analyze_services df = Return (n, total, stats, ws)
      ∧ ∀ p st, Dict.get p stats = Some st →
          p ∈ Dict.keys ws
          ∧ total_workloads st = size (workloads_of ws p)
          ∧ Sorted String.le (workload_names st)
          ∧ NoDup (workload_names st)
          ∧ (∀ x, x ∈ workload_names st ↔ x ∈ workloads_of ws p)
          ∧ length (workload_names st) = total_workloads st
          ∧ (∀ e, env_distribution st !! e
                  = if decide (env_workloads_of ws p e = ∅) then None
                    else Some (size (env_workloads_of ws p e)))
          ∧ (∀ o, org_distribution st !! o
                  = if decide (org_workloads_of ws p o = ∅) then None
                    else Some (size (org_workloads_of ws p o)))
          ∧ Sorted String.le (environments_seen st)
          ∧ (∀ e, e ∈ environments_seen st ↔ env_workloads_of ws p e ≠ ∅)
          ∧ Sorted String.le (organizations st)
          ∧ (∀ o, o ∈ organizations st ↔ org_workloads_of ws p o ≠ ∅).
Proof.
  intros df. destruct (analyze_services_breakdown df) as (ws & Hret & _ & _ & Hpop).
  eexists _, _, _, ws. split; [exact Hret|].
  intros p st. rewrite get_stats.
  destruct (Dict.get p ws) as [w|] eqn:Hw; [|done]. intros [= <-].
  destruct (Hpop p) as [Henv Horg]. unfold env_map, org_map in Henv, Horg.
  rewrite Hw in Henv, Horg. simpl in Henv, Horg.
  assert (Hwl : workloads_of ws p = workloads w).
  { unfold workloads_of. by rewrite Hw. }
  assert (He : ∀ e, env_workloads_of ws p e = default ∅ (env_workloads w !! e)).
  { intros e. unfold env_workloads_of. by rewrite Hw. }
  assert (Ho : ∀ o, org_workloads_of ws p o = default ∅ (org_workloads w !! o)).
  { intros o. unfold org_workloads_of. by rewrite Hw. }
  destruct (sorted_spec (workloads w)) as (Hs1 & Hs2 & Hs3 & Hs4).
  destruct (sorted_spec (dom (size <$> env_workloads w))) as (He1 & _ & He3 & _).
  destruct (sorted_spec (dom (size <$> org_workloads w))) as (Ho1 & _ & Ho3 & _).
  rewrite Hwl. cbn [stat_of total_workloads workload_names env_distribution
    org_distribution environments_seen organizations].
  split_and!; [|done..| | |done| |done|].
  - destruct (decide (p ∈ Dict.keys ws)) as [|Hp]; [done|].
    apply get_None in Hp. congruence.
  - intros e. rewrite He. by apply distribution_lookup.
  - intros o. rewrite Ho. by apply distribution_lookup.
  - intros e. rewrite He3, elem_of_dom, (distribution_lookup _ e Henv), He.
    case_decide; [|by split]. split; [by intros [? ?]|done].
  - intros o. rewrite Ho3, elem_of_dom, (distribution_lookup _ o Horg), Ho.
    case_decide; [|by split]. split; [by intros [? ?]|done].
Qed.

(** ** The total number of workloads *)

Section Total.
Implicit Types (ws : list (string * workspace)) (df : list service_row).

Lemma foldl_sizes_from (a : nat) ws :
  foldl (λ acc e, acc + size (workloads e.2)) a ws
  = a + foldl (λ acc e, acc + size (workloads e.2)) 0 ws.
Proof.
  revert a. induction ws as [|e ws IH]; intros a; simpl; [lia|].
  rewrite (IH (a + size (workloads e.2))), (IH (size (workloads e.2))). lia.
Qed.

Lemma get_of_elem {V : Type} (d : list (string * V)) k v :
  NoDup (Dict.keys d) → (k, v) ∈ d → Dict.get k d = Some v.
Proof.
  unfold Dict.keys. induction d as [|[k' v'] d IH]; csimpl.
  - by intros _ ?%elem_of_nil.
  - intros [Hk Hd]%NoDup_cons [[= -> ->]|Hin]%elem_of_cons.
    + by rewrite String.eqb_refl.
    + destruct (String.eqb_spec k' k) as [->|Hne]; [|by apply IH].
      exfalso. apply Hk. by apply (list_elem_of_fmap_2 fst _ (k, v)).
Qed.

Lemma elem_of_all_workloads ws x :
  NoDup (Dict.keys ws) → x ∈ all_workloads ws ↔ ∃ p, x ∈ workloads_of ws p.
Proof.
  intros Hnd. unfold all_workloads. rewrite elem_of_union_list. split.
  - intros (X & [[k w] [-> Hin]]%list_elem_of_fmap & Hx).
    exists k. unfold workloads_of. by rewrite (get_of_elem ws k w Hnd Hin).
  - intros [p Hx]. unfold workloads_of in Hx.
    destruct (Dict.get p ws) as [w|] eqn:Hw; [|by apply not_elem_of_empty in Hx].
    exists (workloads w). split; [|done].
    apply (list_elem_of_fmap_2 (workloads ∘ snd) _ (p, w)). by apply get_Some_elem.
Qed.

(** Workload sets that do not overlap are counted without repetition. *)
Lemma total_size ws :
  NoDup (Dict.keys ws) →
  (∀ p q x, x ∈ workloads_of ws p → x ∈ workloads_of ws q → p = q) →
  foldl (λ acc e, acc + size (workloads e.2)) 0 ws = size (all_workloads ws).
Proof.
  unfold all_workloads, Dict.keys.
  induction ws as [|[k w] ws IH]; csimpl; [done|].
  intros [Hk Hnd]%NoDup_cons Hdisj.
  assert (Hrest : ∀ p, p ≠ k → workloads_of ((k, w) :: ws) p = workloads_of ws p).
  { intros p Hp. rewrite workloads_of_cons. by rewrite decide_False. }
  assert (Hkeys : ∀ p x, x ∈ workloads_of ws p → p ≠ k).
  { intros p x Hx ->. unfold workloads_of in Hx.
    destruct (Dict.get k ws) as [w'|] eqn:Hw; [|by apply not_elem_of_empty in Hx].
    apply Hk. apply get_Some_elem in Hw.
    by apply (list_elem_of_fmap_2 fst _ (k, w')). }
  rewrite foldl_sizes_from, IH, size_union; [lia| |done|].
  - intros x Hx [p Hp]%(elem_of_all_workloads ws x Hnd).
    pose proof (Hkeys p x Hp) as Hne. apply Hne. symmetry.
    apply (Hdisj k p x).
    + rewrite workloads_of_cons. by rewrite decide_True.
    + by rewrite Hrest.
  - intros p q x Hp Hq. apply (Hdisj p q x).
    + rewrite Hrest; [done|by eapply Hkeys].
    + rewrite Hrest; [done|by eapply Hkeys].
Qed.

Lemma first_match_existsb name ks :
  is_Some (first_match name ks)
  ↔ existsb (λ w, Str.startswith name (w +:+ "-")) ks = true.
Proof.
  induction ks as [|k ks IH]; simpl.
  - split; [by intros [? ?]|done].
  - unfold first_match in *. simpl.
    destruct (Str.startswith name (k +:+ "-")); [by split; eauto|done].
Qed.

Lemma workload_mask_first_match {V : Type} (d : list (string * V)) name :
  workload_mask d (Some name) = true
  ↔ is_Some (first_match name (Dict.keys d))
    ∧ Str.endswith name "-runtime" = false.
Proof.
  unfold workload_mask.
  rewrite andb_true_iff, negb_true_iff, first_match_existsb. done.
Qed.

End Total.

(** The total is the number of names in some workload set, and these are
    the names of the table that the monthly filter keeps. *)
Lemma analyze_services_total (df : list service_row) :
  ∃ ws, analyze_services df
        = Return (length ws,
                  foldl (λ acc e, acc + size (workloads e.2)) 0 ws,
                  prod_map id stat_of <$> ws,
                  ws)
    ∧ NoDup (Dict.keys ws)
    ∧ foldl (λ acc e, acc + size (workloads e.2)) 0 ws = size (all_workloads ws)
    ∧ (∀ x, x ∈ all_workloads ws
            ↔ Some x ∈ service <$> df ∧ workload_mask ws (Some x) = true).
Proof.
  destruct (analyze_services_spec df) as (ws & Hret & Hk & Hw).
  exists ws. split; [exact Hret|].
  assert (Hnd : NoDup (Dict.keys ws)).
  { rewrite Hk, first_pass_keys. apply NoDup_unique. }
  split_and!; [done| |].
  - apply total_size; [done|].
    intros p q x [_ [Hp _]]%Hw [_ [Hq _]]%Hw. congruence.
  - intros x. rewrite (elem_of_all_workloads ws x Hnd), workload_mask_first_match.
    split.
    + intros [p (? & Hp & ?)%Hw]. split_and!; [done| |done]. by rewrite Hp.
    + intros (? & [p Hp] & ?). exists p. by apply Hw.
Qed.

(** X7. The total number of workloads counts every workload name once.
    The second component of the result of [analyze_services] is the number
    of distinct names found in some workload set, which are the non-null
    names of the table that the filter of [analyze_monthly_creations]
    keeps. *)
Theorem total_workloads_distinct :
  ∀ df : list service_row,
    ∃ n total stats ws,
      analyze_services df = Return (n, total, stats, ws)
      ∧ total = size (all_workloads ws)
      ∧ total = sum_list (total_workloads ∘ snd <$> stats)
      ∧ (∀ x, x ∈ all_workloads ws ↔ ∃ p, x ∈ workloads_of ws p)
      ∧ (∀ x, x ∈ all_workloads ws
              ↔ Some x ∈ service <$> df ∧ workload_mask ws (Some x) = true).
Proof.
  intros df. destruct (analyze_services_total df) as (ws & Hret & Hnd & Htot & Hall).
  eexists _, _, _, ws. split; [exact Hret|]. split_and!; [done| | |done].
  - clear. induction ws as [|[k w] ws IH]; csimpl; [done|].
    by rewrite foldl_sizes_from, IH.
  - intros x. by apply elem_of_all_workloads.
Qed.

(** ** The order of the rows *)

Section RowOrder.
Implicit Types (ws : list (string * workspace)) (df : list service_row).

(** Two beginnings of one string: one is a beginning of the other. *)
Lemma startswith_comparable x a b :
  Str.startswith x a = true → Str.startswith x b = true →
  Str.startswith a b = true ∨ Str.startswith b a = true.
Proof.
  revert x b. induction a as [|c a IH]; intros x b; [by right; destruct b|].
  destruct b as [|d b]; [by left|].
  destruct x as [|e x]; [done|]. simpl.
  destruct (Ascii.eqb_spec c e) as [->|]; [|done].
  destruct (Ascii.eqb_spec d e) as [->|]; [|done].
  rewrite Ascii.eqb_refl. apply IH.
Qed.

Lemma prefix_free_spec df p q :
  prefix_free df = true →
  p ∈ omap runtime_prefix_of (service <$> df) →
  q ∈ omap runtime_prefix_of (service <$> df) →
  Str.startswith (q +:+ "-") (p +:+ "-") = true → p = q.
Proof.
  unfold prefix_free. rewrite forallb_forall. intros Hfree Hp Hq Hs.
  apply list_elem_of_In, Hfree in Hp. rewrite forallb_forall in Hp.
  apply list_elem_of_In, Hp in Hq. rewrite Hs in Hq. by apply String.eqb_eq.
Qed.

(** Among prefixes none of which begins another, the first match is the
    only match. *)
Lemma first_match_only name ks p :
  (∀ p q, p ∈ ks → q ∈ ks → Str.startswith (q +:+ "-") (p +:+ "-") = true → p = q) →
  first_match name ks = Some p
  ↔ p ∈ ks ∧ Str.startswith name (p +:+ "-") = true.
Proof.
  intros Hfree. split; [apply first_match_Some|]. intros [Hp Hs].
  destruct (first_match name ks) as [q|] eqn:Hq.
  - apply first_match_Some in Hq as [Hq Hsq]. f_equal.
    destruct (startswith_comparable name _ _ Hs Hsq); [|symmetry]; by apply Hfree.
  - assert (is_Some (first_match name ks)) as [? ?]; [|congruence].
    apply first_match_existsb, existsb_exists. exists p.
    by rewrite <- list_elem_of_In.
Qed.

End RowOrder.

(** X8. The order of the rows matters only through overlapping prefixes.
    Two tables with the same service names, in any order and with any
    repetition, give the same workspaces; and when no announced prefix with
    its hyphen begins another one, they give every workspace the same
    workloads and the same total. *)
Theorem workloads_order_independent :
  ∀ df df' : list service_row,
    (∀ c, c ∈ service <$> df ↔ c ∈ service <$> df') →
    ∃ n total stats ws n' total' stats' ws',
      analyze_services df = Return (n, total, stats, ws)
      ∧ analyze_services df' = Return (n', total', stats', ws')
      ∧ (∀ p, p ∈ Dict.keys ws ↔ p ∈ Dict.keys ws')
      ∧ n = n'
      ∧ (prefix_free df = true →
           (∀ p, workloads_of ws p = workloads_of ws' p) ∧ total = total').
Proof.
  intros df df' Hcells.
  destruct (analyze_services_spec df) as (ws & Hret & Hk & Hw).
  destruct (analyze_services_spec df') as (ws' & Hret' & Hk' & Hw').
  destruct (analyze_services_total df) as (ws0 & Hret0 & Hnd & Htot & _).
  destruct (analyze_services_total df') as (ws0' & Hret0' & Hnd' & Htot' & _).
  assert (ws0 = ws) as -> by congruence.
  assert (ws0' = ws') as -> by congruence.
  pose proof (λ x, elem_of_all_workloads ws x Hnd) as Hall.
  pose proof (λ x, elem_of_all_workloads ws' x Hnd') as Hall'.
  eexists _, _, _, ws, _, _, _, ws'.
  split; [exact Hret|]. split; [exact Hret'|].
  assert (Hkeys : ∀ df0 (ws0 : list (string * workspace)),
            Dict.keys ws0 = Dict.keys (first_pass df0) →
            ∀ p, p ∈ Dict.keys ws0 ↔ p ∈ omap runtime_prefix_of (service <$> df0)).
  { intros df0 ws0 H0 p. by rewrite H0, first_pass_keys, elem_of_unique. }
  assert (Hsame : ∀ p, p ∈ omap runtime_prefix_of (service <$> df)
                       ↔ p ∈ omap runtime_prefix_of (service <$> df')).
  { intros p. rewrite !list_elem_of_omap. by setoid_rewrite Hcells. }
  assert (Hlen : ∀ df0 (ws0 : list (string * workspace)),
            Dict.keys ws0 = Dict.keys (first_pass df0) →
            length ws0
            = size (list_to_set (omap runtime_prefix_of (service <$> df0)) : gset string)).
  { intros df0 ws0 H0.
    rewrite <- (length_fmap fst ws0). fold (Dict.keys ws0).
    rewrite H0, first_pass_keys.
    rewrite <- (size_list_to_set (C := gset string) (unique _)) by apply NoDup_unique.
    f_equal. apply set_eq. intros x. by rewrite !elem_of_list_to_set, elem_of_unique. }
  split_and!.
  - intros p. by rewrite (Hkeys df ws Hk), (Hkeys df' ws' Hk'), Hsame.
  - rewrite (Hlen df ws Hk), (Hlen df' ws' Hk'). f_equal.
    apply set_eq. intros x. by rewrite !elem_of_list_to_set, Hsame.
  - intros Hfree.
    assert (Hfw : ∀ p q, p ∈ Dict.keys ws → q ∈ Dict.keys ws →
              Str.startswith (q +:+ "-") (p +:+ "-") = true → p = q).
    { intros p q Hp%(Hkeys df ws Hk) Hq%(Hkeys df ws Hk).
      by apply (prefix_free_spec df). }
    assert (Hfw' : ∀ p q, p ∈ Dict.keys ws' → q ∈ Dict.keys ws' →
              Str.startswith (q +:+ "-") (p +:+ "-") = true → p = q).
    { intros p q Hp%(Hkeys df' ws' Hk')%Hsame Hq%(Hkeys df' ws' Hk')%Hsame.
      by apply (prefix_free_spec df). }
    assert (Heq : ∀ p, workloads_of ws p = workloads_of ws' p).
    { intros p. apply set_eq. intros x.
      rewrite Hw, Hw', (first_match_only x _ p Hfw), (first_match_only x _ p Hfw').
      by rewrite Hcells, (Hkeys df ws Hk), (Hkeys df' ws' Hk'), Hsame. }
    split; [done|]. rewrite Htot, Htot'. f_equal.
    apply set_eq. intros x. rewrite Hall, Hall'. by setoid_rewrite Heq.
Qed.

Lemma workloads_order_independent_witness :
  ∃ ws ws',
    analyze_services_workspaces (rows_of ["a-runtime"; "b-runtime"; "a-web"; "b-db"])
    = Some ws
    ∧ analyze_services_workspaces
        (rows_of ["b-db"; "a-web"; "b-runtime"; "a-web"; "a-runtime"])
      = Some ws'
    ∧ workloads_of ws "a" = workloads_of ws' "a".
Proof.
  destruct (workloads_order_independent
              (rows_of ["a-runtime"; "b-runtime"; "a-web"; "b-db"])
              (rows_of ["b-db"; "a-web"; "b-runtime"; "a-web"; "a-runtime"]))
    as (n & total & stats & ws & n' & total' & stats' & ws' & Hret & Hret' & _ & _ & H).
  - intros c. unfold rows_of. csimpl. set_solver.
  - exists ws, ws'. unfold analyze_services_workspaces. rewrite Hret, Hret'.
    split; [done|]. split; [done|]. by destruct (H eq_refl) as [-> _].
Defined.

(** ** The monthly counts add up *)

Section MonthlySum.
Variable parse : string → option Timestamp.
Context {V : Type}.
Implicit Types (df : list service_row) (ws : list (string * V)).

(** A row the mask keeps and whose timestamp parses lies in one month. *)
Lemma created_in_one_month ws r :
  sum_list ((λ m, if created_in parse ws m r then 1 else 0) <$> months)
  = if workload_mask ws (service r)
       && bool_decide (is_Some (created_at r ≫= parse))
    then 1 else 0.
Proof.
  unfold created_in. destruct (workload_mask ws (service r)); [|done].
  destruct (created_at r) as [s|]; [|done]. simpl.
  destruct (parse s) as [t|]; [|done]. by destruct (ts_month t).
Qed.

Lemma sum_list_plus {A : Type} (f g : A → nat) (l : list A) :
  sum_list ((λ x, f x + g x) <$> l) = sum_list (f <$> l) + sum_list (g <$> l).
Proof. induction l as [|x l IH]; csimpl; [done|]. rewrite IH. lia. Qed.

Lemma sum_created_in ws df :
  sum_list ((λ m, length (List.filter (created_in parse ws m) df)) <$> months)
  = length (List.filter
              (λ r, workload_mask ws (service r)
                    && bool_decide (is_Some (created_at r ≫= parse))) df).
Proof.
  induction df as [|r df IH]; [done|].
  rewrite (list_fmap_ext _
             (λ m, (if created_in parse ws m r then 1 else 0)
                   + length (List.filter (created_in parse ws m) df)) months).
  - rewrite sum_list_plus, IH, created_in_one_month. cbn [List.filter].
    by destruct (_ && _).
  - intros _ m _. cbn [List.filter]. by destruct (created_in parse ws m r).
Qed.

Lemma reindex_values counts :
  (reindex counts).*2 = (λ m, default 0 (counts !! month_name m)) <$> months.
Proof. reflexivity. Qed.

End MonthlySum.

Lemma filter_length_ext {A : Type} (f g : A → bool) (l : list A) :
  (∀ x, x ∈ l → f x = g x) →
  length (List.filter f l) = length (List.filter g l).
Proof.
  induction l as [|x l IH]; intros H; [done|]. cbn [List.filter].
  rewrite (H x) by by left.
  assert (IH' : length (List.filter f l) = length (List.filter g l)).
  { apply IH. intros y Hy. apply H. by right. }
  destruct (g x); simpl; by rewrite IH'.
Qed.

(** When the aggregation succeeds, the counts add up to the kept rows that
    have a timestamp. *)
Lemma analyze_monthly_creations_sum (parse : string → option Timestamp) {V : Type}
    (df : list service_row) (ws : list (string * V)) :
  all_parse parse ws df →
  ∃ d, analyze_monthly_creations parse df ws = Return d
    ∧ sum_list d.*2
      = length (List.filter
                  (λ r, workload_mask ws (service r)
                        && bool_decide (is_Some (created_at r))) df).
Proof.
  intros Hall. unfold analyze_monthly_creations.
  rewrite to_datetime_Return.
  2:{ apply selected_column. intros r Hr Hm s Hs. by apply (Hall r s). }
  rewrite bind_Return. eexists. split; [reflexivity|].
  rewrite reindex_values.
  rewrite (list_fmap_ext _
             (λ m, length (List.filter (created_in parse ws m) df)) months).
  2:{ intros _ m _. by rewrite count_by_lookup, count_created. }
  rewrite sum_created_in. apply filter_length_ext.
  intros r Hr. destruct (workload_mask ws (service r)) eqn:Hm; [|done]. simpl.
  destruct (created_at r) as [s|] eqn:Hs; [|done]. simpl.
  by destruct (Hall r s) as [t ->].
Qed.



Section TotalsAgree.
Context {V : Type}.
Implicit Types (df : list service_row) (ws : list (string * V)).

(** Among rows with distinct names, the rows the mask keeps are as many as
    the names it keeps. *)
Lemma kept_rows_distinct ws df :
  NoDup (omap service df) →
  length (List.filter (λ r, workload_mask ws (service r)) df)
  = size (list_to_set
            (omap service (List.filter (λ r, workload_mask ws (service r)) df))
          : gset string).
Proof.
  induction df as [|r df IH]; [done|]. cbn [List.filter]. csimpl.
  destruct (service r) as [x|] eqn:Hx.
  - intros [Hn Hnd]%NoDup_cons.
    destruct (workload_mask ws (Some x)) eqn:Hm; [|by apply IH].
    csimpl. rewrite Hx. simpl. rewrite size_union.
    + rewrite size_singleton, <- IH by done. done.
    + apply disjoint_singleton_l. rewrite elem_of_list_to_set, list_elem_of_omap.
      intros (r' & [Hr' _]%list_elem_of_In%filter_In & Hs). apply Hn.
      apply list_elem_of_omap. exists r'. by rewrite <- list_elem_of_In in Hr'.
  - intros Hnd. simpl. by apply IH.
Qed.

Lemma elem_of_kept_names ws df x :
  x ∈ omap service (List.filter (λ r, workload_mask ws (service r)) df)
  ↔ Some x ∈ service <$> df ∧ workload_mask ws (Some x) = true.
Proof.
  rewrite list_elem_of_omap, list_elem_of_fmap. split.
  - intros (r & [Hr Hm]%list_elem_of_In%filter_In & Hs). rewrite Hs in Hm.
    split; [|done]. exists r. by rewrite <- list_elem_of_In in Hr.
  - intros [(r & Hs & Hr) Hm]. exists r. split; [|done].
    apply list_elem_of_In, filter_In. rewrite <- Hs, <- list_elem_of_In. done.
Qed.

End TotalsAgree.


Lemma march_all_dated : ∀ r, r ∈ march_df → is_Some (created_at r ≫= parse_iso).
Proof.
  intros r Hr. unfold march_df in Hr.
  repeat (apply elem_of_cons in Hr as [->|Hr]); [..|by apply elem_of_nil in Hr];
    by eexists.
Defined.


(** ** More on counting developers *)

Section UniqueCount.
Context {A : Type} `{EqDecision A}.
Implicit Types (l seen : list A).

Lemma length_unique_go_le seen l : (length (unique_go seen l) ≤ length l)%nat.
Proof.
  revert seen. induction l as [|x l IH]; intros seen; simpl; [done|].
  destruct (decide (x ∈ seen)); simpl; [|by apply le_n_S].
  by apply Nat.le_le_succ_r.
Qed.

Lemma unique_nil l : unique l = [] ↔ l = [].
Proof.
  split; [|by intros ->]. destruct l as [|x l]; [done|].
  unfold unique. cbn [unique_go]. destruct (decide (x ∈ [])) as [Hx|]; [|done].
  by apply elem_of_nil in Hx.
Qed.

End UniqueCount.

(** X11. Bounds of the developer count.  The count never exceeds the number
    of rows, is 0 only for an empty table, and depends neither on the order
    of the rows nor on repeated rows. *)
Theorem count_unique_developers_bounds :
  ∀ email : list (option string),
    (count_unique_developers email ≤ length email)%nat
    ∧ (count_unique_developers email = 0 ↔ email = [])
    ∧ (∀ email', email ≡ₚ email' →
         count_unique_developers email = count_unique_developers email')
    ∧ count_unique_developers (email ++ email) = count_unique_developers email.
Proof.
  intros email. unfold count_unique_developers. split_and!.
  - etrans; [apply length_unique_go_le|]. by rewrite length_fmap.
  - rewrite length_zero_iff_nil, unique_nil.
    split; [apply fmap_nil_inv|by intros ->].
  - intros email' Hperm. rewrite !length_unique. f_equal.
    apply set_eq. intros x. rewrite !elem_of_list_to_set. by rewrite Hperm.
  - rewrite !length_unique. f_equal.
    apply set_eq. intros x. rewrite !elem_of_list_to_set, fmap_app, elem_of_app.
    tauto.
Qed.

Lemma count_unique_developers_bounds_witness :
  count_unique_developers [Some "a@x.io"; Some "b@x.io"]
  = count_unique_developers [Some "b@x.io"; Some "a@x.io"].
Proof.
  destruct (count_unique_developers_bounds [Some "a@x.io"; Some "b@x.io"])
    as (_ & _ & Hperm & _).
  apply Hperm. apply perm_swap.
Defined.

(** ** More on flattening a user node *)

Section FlattenMore.

(** The row of a node whose ten fields are there, given what the two
    computed fields return. *)
Lemma process_user_returns fields id name email roles pid del prof ins upd groups a g :
  Dict.get "id" fields = Some id → Dict.get "name" fields = Some name →
  Dict.get "email" fields = Some email → Dict.get "roles" fields = Some roles →
  Dict.get "pluralId" fields = Some pid → Dict.get "deletedAt" fields = Some del →
  Dict.get "profile" fields = Some prof → Dict.get "insertedAt" fields = Some ins →
  Dict.get "updatedAt" fields = Some upd → Dict.get "groups" fields = Some groups →
  admin_field roles = Return a → groups_field groups = Return g →
  process_user (JObj fields)
  = Return {| row_id := id; row_name := name; row_email := email; row_admin := a;
              row_plural_id := pid; row_deleted_at := del; row_profile := prof;
              row_inserted_at := ins; row_updated_at := upd; row_groups := g |}.
Proof.
  intros Hid Hname Hemail Hroles Hpid Hdel Hprof Hins Hupd Hgroups Ha Hg.
  unfold process_user.
  rewrite (subscript_get _ _ _ Hid), (subscript_get _ _ _ Hname),
    (subscript_get _ _ _ Hemail), (subscript_get _ _ _ Hroles),
    (subscript_get _ _ _ Hpid), (subscript_get _ _ _ Hdel),
    (subscript_get _ _ _ Hprof), (subscript_get _ _ _ Hins),
    (subscript_get _ _ _ Hupd), (subscript_get _ _ _ Hgroups).
  by rewrite !bind_Return, Ha, !bind_Return, Hg, bind_Return.
Qed.

Lemma user_node_fields fields :
  user_node (JObj fields) = true →
  ∃ id name email roles pid del prof ins upd groups,
    Dict.get "id" fields = Some id ∧ Dict.get "name" fields = Some name
    ∧ Dict.get "email" fields = Some email ∧ Dict.get "roles" fields = Some roles
    ∧ Dict.get "pluralId" fields = Some pid ∧ Dict.get "deletedAt" fields = Some del
    ∧ Dict.get "profile" fields = Some prof ∧ Dict.get "insertedAt" fields = Some ins
    ∧ Dict.get "updatedAt" fields = Some upd ∧ Dict.get "groups" fields = Some groups
    ∧ roles_shaped roles = true ∧ groups_shaped groups = true.
Proof.
  unfold user_node. intros [[Hf Hr]%andb_true_iff Hg]%andb_true_iff.
  cbn [forallb user_fields] in Hf.
  rewrite !andb_true_iff, !bool_decide_eq_true in Hf.
  destruct Hf as ([id Hid] & [name Hname] & [email Hemail] & [roles Hroles]
    & [pid Hpid] & [del Hdel] & [prof Hprof] & [ins Hins] & [upd Hupd]
    & [groups Hgroups] & _).
  rewrite Hroles in Hr. rewrite Hgroups in Hg.
  by exists id, name, email, roles, pid, del, prof, ins, upd, groups.
Qed.

Lemma split_no_sep sep a : Str.contains sep a = false → Str.split sep a = [a].
Proof.
  induction a as [|c a IH]; [done|]. simpl.
  intros [-> Ha]%orb_false_iff. by rewrite (IH Ha).
Qed.

Lemma split_app_sep sep a b :
  Str.contains sep a = false →
  Str.split sep (a +:+ String sep b) = a :: Str.split sep b.
Proof.
  induction a as [|c a IH]; simpl.
  - by rewrite Ascii.eqb_refl.
  - intros [-> Ha]%orb_false_iff. by rewrite (IH Ha).
Qed.

(** Splitting undoes joining when no item contains the separator. *)
Lemma split_join sep (l : list string) :
  l ≠ [] → Forall (λ x, Str.contains sep x = false) l →
  Str.split sep (Str.join (String sep EmptyString) l) = l.
Proof.
  intros Hl Hall. induction Hall as [|x l Hx Hall IH]; [done|].
  destruct l as [|y l]; [by apply split_no_sep|].
  change (Str.join (String sep "") (x :: y :: l))
    with (x +:+ String sep (Str.join (String sep "") (y :: l))).
  rewrite split_app_sep by done. by rewrite IH.
Qed.

End FlattenMore.

(** X12. The plain fields pass through.  For every node of the shape the
    query asks for, the row carries the node's [id], [name], [email],
    [pluralId], [deletedAt], [profile], [insertedAt] and [updatedAt]
    unchanged (a null stays null), and its [admin] is the [admin] of
    [roles] whenever [roles] is a truthy object. *)
Theorem process_user_passthrough :
  ∀ user : json, user_node user = true →
    ∃ r, process_user user = Return r
      ∧ subscript user "id" = Return (row_id r)
      ∧ subscript user "name" = Return (row_name r)
      ∧ subscript user "email" = Return (row_email r)
      ∧ subscript user "pluralId" = Return (row_plural_id r)
      ∧ subscript user "deletedAt" = Return (row_deleted_at r)
      ∧ subscript user "profile" = Return (row_profile r)
      ∧ subscript user "insertedAt" = Return (row_inserted_at r)
      ∧ subscript user "updatedAt" = Return (row_updated_at r)
      ∧ (∀ roles, subscript user "roles" = Return roles → truthy roles = true →
           subscript roles "admin" = Return (row_admin r)).
Proof.
  intros [| | | | |fields]; try done.
  intros (id & name & email & roles & pid & del & prof & ins & upd & groups
    & Hid & Hname & Hemail & Hroles & Hpid & Hdel & Hprof & Hins & Hupd & Hgroups
    & Hr & Hg)%user_node_fields.
  destruct (admin_field_shaped roles Hr) as (a & Ha & _ & Htrue).
  pose proof (groups_field_shaped groups Hg) as Hgf.
  eexists. split; [by eapply process_user_returns|].
  cbn [row_id row_name row_email row_admin row_plural_id row_deleted_at
    row_profile row_inserted_at row_updated_at].
  split_and!; try by apply subscript_get.
  intros roles'. rewrite (subscript_get _ _ _ Hroles). intros [= <-]. apply Htrue.
Qed.

Lemma process_user_passthrough_witness :
  ∃ r, process_user
         (JObj [("id", JStr "u1"); ("name", JStr "Ann"); ("email", JStr "ann@x.io");
                ("roles", JObj [("admin", JBool true)]); ("pluralId", JNull);
                ("deletedAt", JNull); ("profile", JNull);
                ("insertedAt", JStr "2024-01-01"); ("updatedAt", JStr "2024-01-02");
                ("groups", JNull)])
       = Return r
    ∧ row_email r = JStr "ann@x.io"
    ∧ row_deleted_at r = JNull
    ∧ row_admin r = JBool true.
Proof.
  edestruct process_user_passthrough
    as (r & Hr & _ & _ & Hemail & _ & Hdel & _ & _ & _ & Hadmin);
    [|exists r; split; [exact Hr|]].
  - reflexivity.
  - split_and!.
    + by injection Hemail.
    + by injection Hdel.
    + specialize (Hadmin _ eq_refl eq_refl). by injection Hadmin.
Defined.

(** X13. The groups can be read back.  For every node of the shape the
    query asks for that has at least one group, none of whose names
    contains a [;], splitting the [groups] field of the row on [;] gives
    the group names in their order. *)
Theorem process_user_groups_round_trip :
  ∀ user : json, user_node user = true →
    group_names user ≠ [] →
    Forall (λ g, Str.contains ";" g = false) (group_names user) →
    ∃ r, process_user user = Return r
      ∧ Str.split ";" (row_groups r) = group_names user.
Proof.
  intros [| | | | |fields]; try done.
  intros (id & name & email & roles & pid & del & prof & ins & upd & groups
    & Hid & Hname & Hemail & Hroles & Hpid & Hdel & Hprof & Hins & Hupd & Hgroups
    & Hr & Hg)%user_node_fields.
  unfold group_names. rewrite (subscript_get _ _ _ Hgroups).
  intros Hne Hsep.
  destruct (admin_field_shaped roles Hr) as (a & Ha & _).
  pose proof (groups_field_shaped groups Hg) as Hgf.
  eexists. split; [by eapply process_user_returns|]. cbn [row_groups].
  destruct groups; try done. by apply (split_join ";").
Qed.

Lemma process_user_groups_round_trip_witness :
  ∃ r, process_user
         (JObj [("id", JStr "u1"); ("name", JStr "Ann"); ("email", JStr "ann@x.io");
                ("roles", JNull); ("pluralId", JNull); ("deletedAt", JNull);
                ("profile", JNull); ("insertedAt", JStr "2024-01-01");
                ("updatedAt", JStr "2024-01-02");
                ("groups", JArr [JObj [("name", JStr "dev")];
                                 JObj [("name", JStr "ops")]])])
       = Return r
    ∧ Str.split ";" (row_groups r) = ["dev"; "ops"].
Proof.
  apply process_user_groups_round_trip.
  - reflexivity.
  - done.
  - by repeat constructor.
Defined.

(** X14. What [process_user] raises.  A node that is not an object raises
    [TypeError].  An object that lacks one of the ten fields raises
    [KeyError] for the first field it lacks, in the order
    id, name, email, roles, pluralId, deletedAt, profile, insertedAt,
    updatedAt, groups, provided its [roles], when present, is null or an
    object with an [admin] field. *)
Theorem process_user_errors :
  (∀ user : json,
     match user with JObj _ => False | _ => True end →
     process_user user = Raise TypeError)
  ∧ (∀ (fields : list (string * json)) (k : string),
       first_missing fields = Some k →
       from_option roles_shaped true (Dict.get "roles" fields) = true →
       process_user (JObj fields) = Raise (KeyError k)).
Proof.
  split; [by intros []|].
  intros fields k Hk Hr. unfold first_missing, user_fields in Hk.
  unfold process_user.
  destruct (Dict.get "id" fields) as [id|] eqn:Hid;
    [rewrite (subscript_get _ _ _ Hid), bind_Return
    |rewrite (subscript_missing _ _ Hid); simpl in Hk; rewrite Hid in Hk;
     by injection Hk as <-].
  destruct (Dict.get "name" fields) as [name|] eqn:Hname;
    [rewrite (subscript_get _ _ _ Hname), bind_Return
    |rewrite (subscript_missing _ _ Hname); simpl in Hk; rewrite Hid, Hname in Hk;
     by injection Hk as <-].
  destruct (Dict.get "email" fields) as [email|] eqn:Hemail;
    [rewrite (subscript_get _ _ _ Hemail), bind_Return
    |rewrite (subscript_missing _ _ Hemail); simpl in Hk;
     rewrite Hid, Hname, Hemail in Hk; by injection Hk as <-].
  destruct (Dict.get "roles" fields) as [roles|] eqn:Hroles;
    [rewrite (subscript_get _ _ _ Hroles), bind_Return
    |rewrite (subscript_missing _ _ Hroles); simpl in Hk;
     rewrite Hid, Hname, Hemail, Hroles in Hk; by injection Hk as <-].
  destruct (admin_field_shaped roles Hr) as (a & -> & _). rewrite bind_Return.
  destruct (Dict.get "pluralId" fields) as [pid|] eqn:Hpid;
    [rewrite (subscript_get _ _ _ Hpid), bind_Return
    |rewrite (subscript_missing _ _ Hpid); simpl in Hk;
     rewrite Hid, Hname, Hemail, Hroles, Hpid in Hk; by injection Hk as <-].
  destruct (Dict.get "deletedAt" fields) as [del|] eqn:Hdel;
    [rewrite (subscript_get _ _ _ Hdel), bind_Return
    |rewrite (subscript_missing _ _ Hdel); simpl in Hk;
     rewrite Hid, Hname, Hemail, Hroles, Hpid, Hdel in Hk; by injection Hk as <-].
  destruct (Dict.get "profile" fields) as [prof|] eqn:Hprof;
    [rewrite (subscript_get _ _ _ Hprof), bind_Return
    |rewrite (subscript_missing _ _ Hprof); simpl in Hk;
     rewrite Hid, Hname, Hemail, Hroles, Hpid, Hdel, Hprof in Hk;
     by injection Hk as <-].
  destruct (Dict.get "insertedAt" fields) as [ins|] eqn:Hins;
    [rewrite (subscript_get _ _ _ Hins), bind_Return
    |rewrite (subscript_missing _ _ Hins); simpl in Hk;
     rewrite Hid, Hname, Hemail, Hroles, Hpid, Hdel, Hprof, Hins in Hk;
     by injection Hk as <-].
  destruct (Dict.get "updatedAt" fields) as [upd|] eqn:Hupd;
    [rewrite (subscript_get _ _ _ Hupd), bind_Return
    |rewrite (subscript_missing _ _ Hupd); simpl in Hk;
     rewrite Hid, Hname, Hemail, Hroles, Hpid, Hdel, Hprof, Hins, Hupd in Hk;
     by injection Hk as <-].
  destruct (Dict.get "groups" fields) as [groups|] eqn:Hgroups;
    [|rewrite (subscript_missing _ _ Hgroups); simpl in Hk;
      rewrite Hid, Hname, Hemail, Hroles, Hpid, Hdel, Hprof, Hins, Hupd, Hgroups in Hk;
      by injection Hk as <-].
  simpl in Hk.
  by rewrite Hid, Hname, Hemail, Hroles, Hpid, Hdel, Hprof, Hins, Hupd, Hgroups in Hk.
Qed.

Lemma process_user_errors_witness :
  process_user (JObj [("id", JStr "u1"); ("name", JStr "Ann"); ("roles", JNull)])
  = Raise (KeyError "email").
Proof. by apply (proj2 process_user_errors). Defined.

(** ** The rows of the workspace details table *)

Section Details.
Implicit Types (labels : list string) (d : list (string * cell)).

Lemma column_inj x y : column x = column y → x = y.
Proof. unfold column. apply (inj (String.append "workloads_in_")). Qed.

Lemma set_fresh d k (v : cell) : k ∉ Dict.keys d → Dict.set k v d = d ++ [(k, v)].
Proof.
  unfold Dict.keys. induction d as [|[k' v'] d IH]; csimpl; [done|].
  intros [Hne Hk]%not_elem_of_cons.
  destruct (String.eqb_spec k' k); [done|]. by rewrite IH.
Qed.

Lemma distribution_columns_from (dist : gmap string nat) labels d :
  NoDup labels → (∀ x, x ∈ labels → column x ∉ Dict.keys d) →
  foldl (λ d x, Dict.set ("workloads_in_" +:+ x) (CInt (default 0 (dist !! x))) d)
    d labels
  = d ++ ((λ x, (column x, CInt (default 0 (dist !! x)))) <$> labels).
Proof.
  revert d. induction labels as [|x labels IH]; intros d; csimpl.
  - by rewrite app_nil_r.
  - intros [Hx Hnd]%NoDup_cons Hfresh.
    fold (column x). rewrite set_fresh by (apply Hfresh; by left).
    rewrite IH; [by rewrite <- app_assoc|done|].
    intros y Hy. unfold Dict.keys. rewrite fmap_app, elem_of_app. csimpl.
    intros [Hin|Heq%list_elem_of_singleton%column_inj].
    + by apply (Hfresh y); [right|].
    + congruence.
Qed.

(** A comprehension over distinct labels has one column per label. *)
Lemma distribution_columns_eq (dist : gmap string nat) labels :
  NoDup labels →
  distribution_columns dist labels
  = (λ x, (column x, CInt (default 0 (dist !! x)))) <$> labels.
Proof.
  intros Hnd. unfold distribution_columns.
  rewrite distribution_columns_from; [done..|].
  intros x _. apply not_elem_of_nil.
Qed.

Lemma get_columns (g : string → cell) labels x :
  Dict.get (column x) ((λ y, (column y, g y)) <$> labels)
  = if decide (x ∈ labels) then Some (g x) else None.
Proof.
  induction labels as [|y labels IH]; csimpl; [done|].
  destruct (String.eqb_spec y x) as [->|Hne].
  - rewrite decide_True; [done|by left].
  - rewrite IH. destruct (decide (x ∈ labels)).
    + rewrite decide_True; [done|by right].
    + rewrite decide_False; [done|]. intros [->|?]%elem_of_cons; done.
Qed.

(** [{**d, **other}] reads [other] first. *)
Lemma get_update d other k :
  NoDup (Dict.keys other) →
  Dict.get k (dict_update d other)
  = match Dict.get k other with Some v => Some v | None => Dict.get k d end.
Proof.
  unfold dict_update, Dict.keys. revert d.
  induction other as [|[k' v'] other IH]; intros d; csimpl; [done|].
  intros [Hk Hnd]%NoDup_cons. rewrite IH, get_set by done.
  destruct (String.eqb_spec k' k) as [->|Hne].
  - rewrite decide_True by done.
    by destruct (Dict.get k other) eqn:Ho; [apply get_Some_elem in Ho;
      destruct Hk; apply (list_elem_of_fmap_2 fst _ (k, _)) in Ho|].
  - by rewrite decide_False.
Qed.

Lemma filter_ext_elem (P Q : string → Prop) `{∀ x, Decision (P x)}
    `{∀ x, Decision (Q x)} labels :
  (∀ x, x ∈ labels → P x ↔ Q x) → filter P labels = filter Q labels.
Proof.
  induction labels as [|x labels IH]; intros Hpq; [done|].
  rewrite !filter_cons.
  rewrite IH by (intros y Hy; apply Hpq; by right).
  destruct (decide (P x)) as [Hp|Hp], (decide (Q x)) as [Hq|Hq]; try done.
  - destruct Hq. apply Hpq; [by left|done].
  - destruct Hp. apply Hpq; [by left|done].
Qed.

(** Merging labelled columns into a dict adds the new columns at the end,
    in order. *)
Lemma keys_update_columns (g : string → cell) labels d :
  NoDup labels →
  Dict.keys (dict_update d ((λ x, (column x, g x)) <$> labels))
  = Dict.keys d ++ (column <$> filter (λ x, column x ∉ Dict.keys d) labels).
Proof.
  unfold dict_update. revert d.
  induction labels as [|x labels IH]; intros d; csimpl.
  - by rewrite app_nil_r.
  - intros [Hx Hnd]%NoDup_cons. rewrite IH, keys_set by done.
    rewrite filter_cons. destruct (decide (column x ∈ Dict.keys d)) as [Hin|Hin].
    + by rewrite decide_False by by intros ?.
    + rewrite decide_True by done. csimpl. rewrite <- app_assoc. csimpl.
      do 3 f_equal. apply filter_ext_elem. intros y Hy.
      rewrite elem_of_app, list_elem_of_singleton. split; [tauto|].
      intros Hn [?|Heq%column_inj]; [done|congruence].
Qed.

Lemma column_fixed x : column x ∈ fixed_columns ↔ x ∈ environments.
Proof.
  unfold fixed_columns. rewrite elem_of_app, !elem_of_cons, elem_of_nil. split.
  - intros [[Heq|[Heq|[]]]|(y & Heq%column_inj & Hy)%list_elem_of_fmap];
      [discriminate Heq..|congruence].
  - intros Hx. right. by apply list_elem_of_fmap_2.
Qed.

Lemma NoDup_sorted (s : gset string) : NoDup (sorted s).
Proof. by destruct (sorted_spec s) as (_ & ? & _). Qed.

End Details.

Section DetailsRow.
Implicit Types (stats : list (string * workspace_stat)) (st : workspace_stat).

Lemma details_row_eq stats name st :
  details_row stats name st
  = dict_update
      (dict_update
         [("workspace_name", CStr name);
          ("total_workload_count", CInt (total_workloads st))]
         (distribution_columns (env_distribution st) environments))
      ((λ o, (column o, CInt (default 0 (org_distribution st !! o))))
         <$> sorted (all_orgs stats)).
Proof.
  unfold details_row. by rewrite (distribution_columns_eq _ _ (NoDup_sorted _)).
Qed.

Lemma details_row_fixed_keys name st :
  Dict.keys
    (dict_update
       [("workspace_name", CStr name);
        ("total_workload_count", CInt (total_workloads st))]
       (distribution_columns (env_distribution st) environments))
  = fixed_columns.
Proof. reflexivity. Qed.

End DetailsRow.

(** X15. The details table is rectangular.  Every row that
    [export_results_to_zip] builds has the same columns, each once: the
    workspace name, the total, the seven environment columns, then one
    column per organization seen in any workspace, in ascending order,
    except for an organization whose name is an environment label, which
    gets no column of its own. *)
Theorem details_rows_rectangular :
  ∀ (stats : list (string * workspace_stat)) (row : list (string * cell)),
    row ∈ workspace_details stats →
    Dict.keys row
    = fixed_columns
      ++ (column <$> filter (λ o, o ∉ environments) (sorted (all_orgs stats)))
    ∧ NoDup (Dict.keys row).
Proof.
  intros stats row ([name st] & -> & _)%list_elem_of_fmap. cbn [fst snd].
  assert (Hkeys : Dict.keys (details_row stats name st)
    = fixed_columns
      ++ (column <$> filter (λ o, o ∉ environments) (sorted (all_orgs stats)))).
  { rewrite details_row_eq, keys_update_columns by apply NoDup_sorted.
    rewrite details_row_fixed_keys. do 2 f_equal.
    apply filter_ext_elem. intros o _. by rewrite column_fixed. }
  split; [done|]. rewrite Hkeys. apply NoDup_app. split_and!.
  - apply (bool_decide_unpack _). by vm_compute.
  - intros k Hk (o & -> & Ho)%list_elem_of_fmap.
    apply column_fixed in Hk. by apply list_elem_of_filter in Ho as [? _].
  - apply NoDup_fmap_2_strong; [|apply NoDup_filter, NoDup_sorted].
    intros x y _ _. apply column_inj.
Qed.

Lemma details_rows_rectangular_witness :
  Dict.keys (details_row prod_stats "shop" prod_stat)
  = fixed_columns ++ (column <$> ["acme"]).
Proof.
  edestruct (details_rows_rectangular prod_stats) as [Hkeys _]; [by left|].
  exact Hkeys.
Defined.

(** X16. What a details row holds.  The row of a workspace holds its name
    and its total; under the column of an organization seen anywhere, the
    number of its workloads from that organization (0 when none), even when
    the organization is named like an environment, whose column then no
    longer shows the environment count; and under the column of every other
    environment label, the number of its workloads in that environment
    (0 when none). *)
Theorem details_row_values :
  ∀ (stats : list (string * workspace_stat)) (name : string) (st : workspace_stat),
    Dict.get "workspace_name" (details_row stats name st) = Some (CStr name)
    ∧ Dict.get "total_workload_count" (details_row stats name st)
      = Some (CInt (total_workloads st))
    ∧ (∀ o, o ∈ all_orgs stats →
         Dict.get (column o) (details_row stats name st)
         = Some (CInt (default 0 (org_distribution st !! o))))
    ∧ (∀ e, e ∈ environments → e ∉ all_orgs stats →
         Dict.get (column e) (details_row stats name st)
         = Some (CInt (default 0 (env_distribution st !! e)))).
Proof.
  intros stats name st. rewrite details_row_eq.
  assert (Hnd : NoDup (Dict.keys
    ((λ o, (column o, CInt (default 0 (org_distribution st !! o))))
       <$> sorted (all_orgs stats)))).
  { unfold Dict.keys. rewrite <- list_fmap_compose.
    apply NoDup_fmap_2_strong; [|apply NoDup_sorted].
    intros x y _ _. apply column_inj. }
  assert (Hother : ∀ k, (∀ o, k ≠ column o) →
    Dict.get k ((λ o, (column o, CInt (default 0 (org_distribution st !! o))))
                  <$> sorted (all_orgs stats)) = None).
  { intros k Hk. apply get_None. unfold Dict.keys. rewrite <- list_fmap_compose.
    intros (o & -> & _)%list_elem_of_fmap. by apply (Hk o). }
  destruct (sorted_spec (all_orgs stats)) as (_ & _ & Hmem & _).
  split_and!.
  - rewrite get_update, Hother by done. reflexivity.
  - rewrite get_update, Hother by done. reflexivity.
  - intros o Ho. rewrite get_update, get_columns by done.
    by rewrite decide_True by by apply Hmem.
  - intros e He Hno. rewrite get_update, get_columns by done.
    rewrite decide_False by by rewrite Hmem.
    unfold environments in He.
    repeat (apply elem_of_cons in He as [->|He]); [reflexivity..|].
    by apply elem_of_nil in He.
Qed.

Lemma details_row_values_witness :
  Dict.get (column "prod")
    (details_row prod_stats "shop" prod_stat)
  = Some (CInt 1).
Proof.
  edestruct (details_row_values prod_stats "shop") as (_ & _ & Horg & _).
  rewrite Horg; [reflexivity|]. by vm_compute.
Defined.

(** ** Edge cases of the analysis *)

Section NoRuntime.
Implicit Types (df : list service_row).

Lemma assign_nil name repo : assign name repo [] = Return [].
Proof. reflexivity. Qed.

Lemma second_pass_nil df : second_pass df [] = Return [].
Proof.
  induction df as [|r df IH]; [done|]. simpl.
  by destruct (service r).
Qed.

Lemma first_pass_nil df :
  (∀ name, Some name ∈ service <$> df → Str.endswith name "-runtime" = false) →
  first_pass df = [].
Proof.
  intros Hno. apply (fmap_nil_inv fst). fold (Dict.keys (first_pass df)).
  rewrite first_pass_keys. apply unique_nil.
  destruct (omap runtime_prefix_of (service <$> df)) as [|p l] eqn:Hp; [done|].
  assert (p ∈ omap runtime_prefix_of (service <$> df)) as Hin by (rewrite Hp; by left).
  apply elem_of_runtime_prefixes in Hin as (name & Hname & He & _).
  by rewrite (Hno name Hname) in He.
Qed.

Lemma filter_none {A : Type} (f : A → bool) (l : list A) :
  (∀ x, f x = false) → List.filter f l = [].
Proof. intros Hf. induction l as [|x l IH]; [done|]. simpl. by rewrite Hf. Qed.

End NoRuntime.



Section PrefixEnvironment.

Lemma split_app sep a b :
  Str.split sep (a +:+ String sep b) = Str.split sep a ++ Str.split sep b.
Proof.
  induction a as [|c a IH]; simpl.
  - by rewrite Ascii.eqb_refl.
  - destruct (Ascii.eqb c sep); [by rewrite IH|].
    rewrite IH. pose proof (split_nonempty sep a) as Hne.
    by destruct (Str.split sep a).
Qed.

Lemma get_environment_loop_app parts rest e :
  get_environment_loop parts = Some e →
  get_environment_loop (parts ++ rest) = Some e.
Proof.
  induction parts as [|p parts IH]; [done|]. cbn [get_environment_loop app].
  by destruct (Str.mem (Str.lower p) environments).
Qed.

(** A name that starts with a prefix and a hyphen has the tokens of the
    prefix first. *)
Lemma prefix_tokens name p e :
  Str.startswith name (p +:+ "-") = true →
  get_environment_loop (Str.split "-" p) = Some e →
  get_environment_loop (Str.split "-" name) = Some e.
Proof.
  intros [r ->]%startswith_iff He.
  replace ((p +:+ "-") +:+ r) with (p +:+ String "-" r).
  - rewrite split_app. by apply get_environment_loop_app.
  - clear. induction p as [|c p IH]; simpl; [done|]. by rewrite IH.
Qed.

End PrefixEnvironment.

(** X18. A workspace named after an environment.  When the prefix of a
    workspace itself contains an environment token, every workload of that
    workspace is classified by the first such token of the prefix, whatever
    follows in its own name: all of its workloads fall under that one
    environment. *)
Theorem prefix_environment_wins :
  ∀ (df : list service_row) (p e : string),
    get_environment (Some p) = Return (Some e) →
    ∃ n total stats ws,
      analyze_services df = Return (n, total, stats, ws)
      ∧ env_workloads_of ws p e = workloads_of ws p
      ∧ (∀ e', e' ≠ e → env_workloads_of ws p e' = ∅).
Proof.
  intros df p e [= He].
  destruct (analyze_services_breakdown df) as (ws & Hret & Henv & _).
  destruct (analyze_services_spec df) as (ws0 & Hret0 & _ & Hw).
  assert (ws0 = ws) as -> by congruence.
  eexists _, _, _, ws. split; [exact Hret|].
  assert (Hcls : ∀ x, x ∈ workloads_of ws p →
            get_environment_loop (Str.split "-" x) = Some e).
  { intros x (_ & [_ Hs]%first_match_Some & _)%Hw. by apply (prefix_tokens x p). }
  split.
  - apply set_eq. intros x. rewrite Henv. split; [by intros [? _]|].
    intros Hx. split; [done|by apply Hcls].
  - intros e' Hne. apply set_eq. intros x. rewrite Henv. split.
    + intros [Hx He']. rewrite (Hcls x Hx) in He'. congruence.
    + by intros ?%not_elem_of_empty.
Qed.

Lemma prefix_environment_wins_witness :
  ∃ ws,
    analyze_services_workspaces
      (rows_of ["prod-team-runtime"; "prod-team-api-dev"; "prod-team-web-test"])
    = Some ws
    ∧ env_workloads_of ws "prod-team" "prod" = workloads_of ws "prod-team"
    ∧ env_workloads_of ws "prod-team" "dev" = ∅.
Proof.
  destruct (prefix_environment_wins
              (rows_of ["prod-team-runtime"; "prod-team-api-dev"; "prod-team-web-test"])
              "prod-team" "prod" eq_refl)
    as (n & total & stats & ws & Hret & Hall & Hnone).
  exists ws. unfold analyze_services_workspaces. rewrite Hret.
  split; [done|]. split; [exact Hall|]. by apply Hnone.
Defined.

(** ** Reading the response *)

Section Response.

Lemma for_each_nodes edges :
  Forall (λ e, is_Some (node_of e)) edges →
  for_each (λ edge, subscript edge "node") edges = Return (omap node_of edges).
Proof.
  induction 1 as [|e edges [n Hn] _ IH]; [done|].
  cbn [for_each omap list_omap]. rewrite IH, Hn.
  destruct e as [| | | | |fields]; try done. simpl in Hn.
  by rewrite (subscript_get _ _ _ Hn).
Qed.

Lemma nodes_of_body fields d users edges :
  Dict.get "data" fields = Some (JObj d) →
  Dict.get "users" d = Some (JObj users) →
  Dict.get "edges" users = Some (JArr edges) →
  nodes_of (JObj fields) = for_each (λ edge, subscript edge "node") edges.
Proof.
  intros Hd Hu He. unfold nodes_of.
  by rewrite (subscript_get _ _ _ Hd), bind_Return, (subscript_get _ _ _ Hu),
    bind_Return, (subscript_get _ _ _ He), bind_Return.
Qed.

End Response.

(** X19. What [fetch_users] makes of the reply.  A body with an [errors]
    key yields the GraphQL error and never users, whatever else the body
    holds.  A body without that key whose [data.users.edges] is a list of
    objects with a [node] yields those nodes, one per edge and in the order
    of the edges; and the page information of the body is never read:
    replacing it changes nothing, so a further page is never asked for. *)
Theorem fetch_users_outcome :
  (∀ (fields : list (string * json)) (errors : json),
     Dict.get "errors" fields = Some errors →
     fetch_users (Body (JObj fields)) = GraphQLErrors errors)
  ∧ (∀ (fields d users : list (string * json)) (edges : list json),
       Dict.get "errors" fields = None →
       Dict.get "data" fields = Some (JObj d) →
       Dict.get "users" d = Some (JObj users) →
       Dict.get "edges" users = Some (JArr edges) →
       Forall (λ e, is_Some (node_of e)) edges →
       fetch_users (Body (JObj fields)) = Nodes (omap node_of edges)
       ∧ length (omap node_of edges) = length edges
       ∧ ∀ page_info,
           fetch_users (Body (with_page_info page_info fields d users))
           = Nodes (omap node_of edges)).
Proof.
  split.
  - intros fields errors He. unfold fetch_users, has_errors.
    rewrite He. simpl. by rewrite He.
  - intros fields d users edges He Hd Hu Hedges Hnodes.
    assert (Hbody : ∀ fields' d' users',
      Dict.get "errors" fields' = None →
      Dict.get "data" fields' = Some (JObj d') →
      Dict.get "users" d' = Some (JObj users') →
      Dict.get "edges" users' = Some (JArr edges) →
      fetch_users (Body (JObj fields')) = Nodes (omap node_of edges)).
    { intros fields' d' users' He' Hd' Hu' Hedges'. unfold fetch_users, has_errors.
      rewrite He'. simpl.
      by rewrite (nodes_of_body _ _ _ _ Hd' Hu' Hedges'), (for_each_nodes _ Hnodes). }
    split_and!.
    + by apply (Hbody fields d users).
    + clear -Hnodes. induction Hnodes as [|e edges [n Hn] _ IH]; [done|].
      cbn [omap list_omap]. rewrite Hn. simpl. by f_equal.
    + intros page_info. unfold with_page_info.
      eapply Hbody.
      * rewrite get_set. by rewrite decide_False.
      * rewrite get_set. by rewrite decide_True.
      * rewrite get_set. by rewrite decide_True.
      * rewrite get_set. by rewrite decide_False.
Qed.

Lemma fetch_users_outcome_witness :
  fetch_users
    (Body (JObj [("data",
                  JObj [("users",
                         JObj [("edges",
                                JArr [JObj [("node", JObj [("id", JStr "u1")])];
                                      JObj [("node", JObj [("id", JStr "u2")])]]);
                               ("pageInfo",
                                JObj [("hasNextPage", JBool true);
                                      ("endCursor", JStr "c2")])])])]))
  = Nodes [JObj [("id", JStr "u1")]; JObj [("id", JStr "u2")]].
Proof.
  set (edges := [JObj [("node", JObj [("id", JStr "u1")])];
                 JObj [("node", JObj [("id", JStr "u2")])]]).
  set (users := [("edges", JArr edges);
                 ("pageInfo", JObj [("hasNextPage", JBool true);
                                    ("endCursor", JStr "c2")])]).
  set (d := [("users", JObj users)]).
  assert (Hedges : Forall (λ e, is_Some (node_of e)) edges).
  { repeat constructor; by eexists. }
  destruct (proj2 fetch_users_outcome [("data", JObj d)] d users edges
              eq_refl eq_refl eq_refl eq_refl Hedges) as [Hnodes _].
  exact Hnodes.
Defined.
